(** * journalctl-ts: the JournalCtl class of src/JournalCtl.ts

    A shallow embedding of the option validators, the argument builder, the
    line decoder, the process supervisor and the async generator of
    [JournalCtl], followed by the properties stated about them.

    - JavaScript strings are sequences of UTF-16 code units, here [list N].
    - What the class calls of the JavaScript runtime is modelled from its
      definition in ECMA-262 and in the Node.js documentation: the regular
      expressions of the class, [JSON.parse], the [EventEmitter], promises
      and async generators.  The module is strict code.
    - [Date] parsing and formatting depend on the host and are taken as an
      interface ([Host]).
    - The constructor returns the instance or the error it throws, and the
      list of the processes spawned so far is passed along.
    - An instance is a record of its fields, of its listeners and of the
      promises of its generator; a run is a list of actions in the order
      in which the event loop runs them. *)

From Stdlib Require Import ZArith NArith String Ascii List Bool Lia.
From stdpp Require Import base option list gmap.
Import ListNotations.

Local Set Warnings "-register-all".
Local Open Scope N_scope.

(** ** JavaScript strings *)

Abbreviation jsstring := (list N).

(** A string literal as a sequence of code units. *)
Definition js (s : string) : jsstring := map N_of_ascii (list_ascii_of_string s).
Arguments js s%_string : simpl never.

(** The code unit of a one-character literal. *)
Definition chr (s : string) : N :=
  match s with
  | String a _ => N_of_ascii a
  | EmptyString => 0
  end.
Arguments chr s%_string : simpl never.

Definition QUOTE : N := 34.

(** The class [\s] of a JavaScript regular expression: WhiteSpace and
    LineTerminator code points. *)
Definition is_js_space (c : N) : bool :=
  ((9 <=? c) && (c <=? 13)) || (c =? 32) || (c =? 0xa0) || (c =? 0x1680)
  || ((0x2000 <=? c) && (c <=? 0x200a)) || (c =? 0x2028) || (c =? 0x2029)
  || (c =? 0x202f) || (c =? 0x205f) || (c =? 0x3000) || (c =? 0xfeff).

(** [\d] *)
Definition is_digit (c : N) : bool := (chr "0" <=? c) && (c <=? chr "9").

Definition is_upper (c : N) : bool := (chr "A" <=? c) && (c <=? chr "Z").
Definition is_lower (c : N) : bool := (chr "a" <=? c) && (c <=? chr "z").

(** [String.prototype.includes] *)
Fixpoint starts_with (needle s : jsstring) : bool :=
  match needle, s with
  | [], _ => true
  | n :: needle', c :: s' => (n =? c) && starts_with needle' s'
  | _ :: _, [] => false
  end.

Fixpoint includes (needle s : jsstring) : bool :=
  starts_with needle s ||
  match s with
  | [] => false
  | _ :: s' => includes needle s'
  end.

(** [String.prototype.trim] *)
Fixpoint trim_start (s : jsstring) : jsstring :=
  match s with
  | c :: s' => if is_js_space c then trim_start s' else s
  | [] => []
  end.

Definition trim (s : jsstring) : jsstring :=
  rev (trim_start (rev (trim_start s))).

(** Decimal digits of a natural number, as [Number.prototype.toString]
    prints an integer below 10^21; the number has no more decimal digits
    than binary ones. *)
Fixpoint digits_fuel (fuel : nat) (n : N) (acc : jsstring) : jsstring :=
  match fuel with
  | O => acc
  | S fuel' =>
      let acc' := (chr "0" + n mod 10) :: acc in
      if n <? 10 then acc' else digits_fuel fuel' (n / 10) acc'
  end.

Definition decimal (n : N) : jsstring := digits_fuel (S (N.to_nat (N.log2 n))) n [].


(** ** JSON.parse

    The JSON grammar of ECMA-262 (24.5.1) as a pushdown machine that reads
    the text one code unit at a time.  Numbers keep their lexeme: the class
    never computes with them. *)

Inductive value :=
  | VNull
  | VBool (b : bool)
  | VNum (lexeme : jsstring)
  | VStr (s : jsstring)
  | VArr (elems : list value)
  | VObj (props : gmap jsstring value).

Inductive token :=
  | TLBrace | TRBrace | TLBracket | TRBracket | TColon | TComma
  | TString (s : jsstring)
  | TScalar (v : value).

(** JSON whitespace: tab, line feed, carriage return, space. *)
Definition is_json_space (c : N) : bool :=
  (c =? 9) || (c =? 10) || (c =? 13) || (c =? 32).

Inductive num_state :=
  | NMinus | NZero | NInt | NPoint | NFrac | NExp | NExpSign | NExpInt.

Definition is_exp (c : N) : bool := (c =? chr "e") || (c =? chr "E").

Definition num_step (st : num_state) (c : N) : option num_state :=
  match st with
  | NMinus => if c =? chr "0" then Some NZero
              else if is_digit c then Some NInt else None
  | NZero => if c =? chr "." then Some NPoint
             else if is_exp c then Some NExp else None
  | NInt => if is_digit c then Some NInt
            else if c =? chr "." then Some NPoint
            else if is_exp c then Some NExp else None
  | NPoint => if is_digit c then Some NFrac else None
  | NFrac => if is_digit c then Some NFrac
             else if is_exp c then Some NExp else None
  | NExp => if is_digit c then Some NExpInt
            else if (c =? chr "+") || (c =? chr "-") then Some NExpSign
            else None
  | NExpSign => if is_digit c then Some NExpInt else None
  | NExpInt => if is_digit c then Some NExpInt else None
  end.

Definition num_final (st : num_state) : bool :=
  match st with
  | NZero | NInt | NFrac | NExpInt => true
  | _ => false
  end.

Definition hex_digit (c : N) : option N :=
  if is_digit c then Some (c - chr "0")
  else if (chr "a" <=? c) && (c <=? chr "f") then Some (c - chr "a" + 10)
  else if (chr "A" <=? c) && (c <=? chr "F") then Some (c - chr "A" + 10)
  else None.

Definition escape_char (c : N) : option N :=
  if c =? QUOTE then Some QUOTE
  else if c =? chr "\" then Some (chr "\")
  else if c =? chr "/" then Some (chr "/")
  else if c =? chr "b" then Some 8
  else if c =? chr "f" then Some 12
  else if c =? chr "n" then Some 10
  else if c =? chr "r" then Some 13
  else if c =? chr "t" then Some 9
  else None.

Inductive literal := LitTrue | LitFalse | LitNull.

Definition literal_text (l : literal) : jsstring :=
  match l with
  | LitTrue => js "true"
  | LitFalse => js "false"
  | LitNull => js "null"
  end.

Definition literal_value (l : literal) : value :=
  match l with
  | LitTrue => VBool true
  | LitFalse => VBool false
  | LitNull => VNull
  end.

(** Where the reader is inside the current token; inside a literal name,
    how many of its letters it has seen. *)
Inductive lex_mode :=
  | LIdle
  | LString (acc : jsstring)
  | LEscape (acc : jsstring)
  | LUnicode (acc : jsstring) (seen : nat) (code : N)
  | LNumber (st : num_state) (acc : jsstring)
  | LWord (lit : literal) (seen : nat).

(** An open array or object; an object remembers the key that waits for
    its value. *)
Inductive frame :=
  | FArray (elems : list value)
  | FObject (props : gmap jsstring value) (key : option jsstring).

Inductive expect :=
  | EValue | EValueOrEnd | EKeyOrEnd | EKey | EColon | ECommaOrEnd
  | EDone (v : value).

Abbreviation pstate := (list frame * expect)%type.
Abbreviation machine := (lex_mode * pstate)%type.

(** A finished value goes to the innermost open container.  A property is
    created with CreateDataProperty: a repeated key overwrites. *)
Definition deliver (v : value) (stk : list frame) : option pstate :=
  match stk with
  | [] => Some ([], EDone v)
  | FArray es :: stk' => Some (FArray (es ++ [v]) :: stk', ECommaOrEnd)
  | FObject m (Some k) :: stk' => Some (FObject (<[k:=v]> m) None :: stk', ECommaOrEnd)
  | FObject _ None :: _ => None
  end.

Definition feed (t : token) (p : pstate) : option pstate :=
  let '(stk, e) := p in
  match e, t with
  | (EValue | EValueOrEnd), TScalar v => deliver v stk
  | (EValue | EValueOrEnd), TString s => deliver (VStr s) stk
  | (EValue | EValueOrEnd), TLBrace => Some (FObject ∅ None :: stk, EKeyOrEnd)
  | (EValue | EValueOrEnd), TLBracket => Some (FArray [] :: stk, EValueOrEnd)
  | (EValueOrEnd | ECommaOrEnd), TRBracket =>
      match stk with
      | FArray es :: stk' => deliver (VArr es) stk'
      | _ => None
      end
  | (EKeyOrEnd | ECommaOrEnd), TRBrace =>
      match stk with
      | FObject m None :: stk' => deliver (VObj m) stk'
      | _ => None
      end
  | (EKeyOrEnd | EKey), TString k =>
      match stk with
      | FObject m None :: stk' => Some (FObject m (Some k) :: stk', EColon)
      | _ => None
      end
  | EColon, TColon => Some (stk, EValue)
  | ECommaOrEnd, TComma =>
      match stk with
      | FArray _ :: _ => Some (stk, EValue)
      | FObject _ None :: _ => Some (stk, EKey)
      | _ => None
      end
  | _, _ => None
  end.

Definition idle (p : pstate) : machine := (LIdle, p).

(** A code unit read between two tokens. *)
Definition step_idle (c : N) (p : pstate) : option machine :=
  if is_json_space c then Some (LIdle, p)
  else if c =? chr "{" then idle <$> feed TLBrace p
  else if c =? chr "}" then idle <$> feed TRBrace p
  else if c =? chr "[" then idle <$> feed TLBracket p
  else if c =? chr "]" then idle <$> feed TRBracket p
  else if c =? chr ":" then idle <$> feed TColon p
  else if c =? chr "," then idle <$> feed TComma p
  else if c =? QUOTE then Some (LString [], p)
  else if c =? chr "-" then Some (LNumber NMinus [c], p)
  else if c =? chr "0" then Some (LNumber NZero [c], p)
  else if is_digit c then Some (LNumber NInt [c], p)
  else if c =? chr "t" then Some (LWord LitTrue 1, p)
  else if c =? chr "f" then Some (LWord LitFalse 1, p)
  else if c =? chr "n" then Some (LWord LitNull 1, p)
  else None.

Definition step_machine (c : N) (s : machine) : option machine :=
  let '(mode, p) := s in
  match mode with
  | LIdle => step_idle c p
  | LString acc =>
      if c =? QUOTE then idle <$> feed (TString acc) p
      else if c =? chr "\" then Some (LEscape acc, p)
      else if c <? 32 then None
      else Some (LString (acc ++ [c]), p)
  | LEscape acc =>
      if c =? chr "u" then Some (LUnicode acc 0 0, p)
      else (λ e, (LString (acc ++ [e]), p)) <$> escape_char c
  | LUnicode acc seen code =>
      h ← hex_digit c;
      let code' := 16 * code + h in
      if decide (seen = 3%nat) then Some (LString (acc ++ [code']), p)
      else Some (LUnicode acc (S seen) code', p)
  | LNumber st acc =>
      match num_step st c with
      | Some st' => Some (LNumber st' (acc ++ [c]), p)
      | None =>
          if num_final st then feed (TScalar (VNum acc)) p ≫= step_idle c
          else None
      end
  | LWord lit seen =>
      match drop seen (literal_text lit) with
      | r :: rest =>
          if c =? r then
            match rest with
            | [] => idle <$> feed (TScalar (literal_value lit)) p
            | _ => Some (LWord lit (S seen), p)
            end
          else None
      | [] => None
      end
  end.

Definition step (s : option machine) (c : N) : option machine :=
  s ≫= step_machine c.

Definition start : machine := (LIdle, ([], EValue)).

Definition result_of (p : pstate) : option value :=
  match p with
  | ([], EDone v) => Some v
  | _ => None
  end.

(** End of the text: a number may still be open. *)
Definition finish (s : option machine) : option value :=
  '(mode, p) ← s;
  match mode with
  | LIdle => result_of p
  | LNumber st acc =>
      if num_final st then feed (TScalar (VNum acc)) p ≫= result_of else None
  | _ => None
  end.

Definition run (s : option machine) (text : jsstring) : option machine :=
  fold_left step text s.

(** [JSON.parse(text)]; [None] stands for the SyntaxError. *)
Definition JSON_parse (text : jsstring) : option value :=
  finish (run (Some start) text).

(** ** The line decoder (the ['line'] handler, lines 234-244) *)

(** [/\s*\}$/] matched at the start of [s]: white space up to a closing
    brace that ends the input. *)
Fixpoint closes_line (s : jsstring) : bool :=
  match s with
  | [] => false
  | c :: rest =>
      if is_js_space c then closes_line rest
      else (c =? chr "}") && bool_decide (rest = [])
  end.

(** [line.replace(/,\s*\}$/, ' }')]: the leftmost match is replaced. *)
Fixpoint replace_trailing_comma (line : jsstring) : jsstring :=
  match line with
  | [] => []
  | c :: rest =>
      if (c =? chr ",") && closes_line rest then js " }"
      else c :: replace_trailing_comma rest
  end.

(** What the handlers receive as [message]: an object, or an array that
    carries named properties beside its elements. *)
Record entry := Entry {
  entry_elems : option (list value);
  entry_props : gmap jsstring value
}.

(** The object behind a parsed value.  Reading a property of [null]
    throws a TypeError; so does, in strict code, creating a property on a
    number, a string or a boolean. *)
Definition as_object (v : value) : option entry :=
  match v with
  | VObj m => Some (Entry None m)
  | VArr es => Some (Entry (Some es) ∅)
  | VNull | VBool _ | VNum _ | VStr _ => None
  end.

(** [if (message.K === undefined) message.K = ''], the empty string. *)
Definition default_empty (k : jsstring) (e : entry) : entry :=
  match entry_props e !! k with
  | None => Entry (entry_elems e) (<[k := VStr []]> (entry_props e))
  | Some _ => e
  end.

(** The body of the [try] block up to the emission: [None] when it throws. *)
Definition parse_line (line : jsstring) : option entry :=
  v ← JSON_parse (replace_trailing_comma line);
  e ← as_object v;
  Some (default_empty (js "_HOSTNAME") (default_empty (js "MESSAGE") e)).

(** ** Option validators (lines 57-122) *)

(** A JavaScript number as the class observes it: an integer (with -0 as
    0), or any value on which [Number.isInteger] is false (NaN, the
    infinities, the fractions). *)
Inductive number :=
  | Int (z : Z)
  | NonInteger.

(** The [new Error(...)] values the class throws, and the RangeError of
    [toISOString] on an invalid Date. *)
Inductive thrown :=
  | NotValidFieldName (fieldName : jsstring)
  | NotValidSyslogIdentifier (identifier : jsstring)
  | NotValidDate (dateString : jsstring)
  | NotAnInteger (value : number)
  | NotPositiveInteger (value : number)
  | NotValidPriority (priority : number)
  | NotValidUnit (unit : jsstring)
  | SinceMoreRecentThanUntil
  | InvalidTimeValue
  | OnlyOneGenerator.

Inductive result (A : Type) :=
  | Ok (a : A)
  | Throw (e : thrown).
Arguments Ok {A} a.
Arguments Throw {A} e.

#[global] Instance result_ret : MRet result := λ A a, Ok a.
#[global] Instance result_bind : MBind result := λ A B f r,
  match r with
  | Ok a => f a
  | Throw e => Throw e
  end.
#[global] Instance result_fmap : FMap result := λ A B f r,
  match r with
  | Ok a => Ok (f a)
  | Throw e => Throw e
  end.

(** [/^[A-Z0-9_]+$/] *)
Definition is_field_char (c : N) : bool :=
  is_upper c || is_digit c || (c =? chr "_").

Definition validateFieldName (fieldName : jsstring) : result jsstring :=
  if bool_decide (fieldName ≠ []) && forallb is_field_char fieldName
  then Ok fieldName else Throw (NotValidFieldName fieldName).

(** [/^[^\s]+$/] *)
Definition validateSyslogIdentifier (identifier : jsstring) : result jsstring :=
  if bool_decide (identifier ≠ []) && forallb (λ c, negb (is_js_space c)) identifier
  then Ok identifier else Throw (NotValidSyslogIdentifier identifier).

(** [/^[A-Za-z0-9:\-_\.\\]+$/] *)
Definition is_unit_char (c : N) : bool :=
  is_upper c || is_lower c || is_digit c || (c =? chr ":") || (c =? chr "-")
  || (c =? chr "_") || (c =? chr ".") || (c =? chr "\").

Definition validateUnit (unit : jsstring) : result jsstring :=
  if bool_decide (unit ≠ []) && forallb is_unit_char unit
  then Ok unit else Throw (NotValidUnit unit).

(** [/^\d\d\d\d-\d\d-\d\d(?: \d\d:\d\d(?::\d\d)?)?$/] *)
Definition is_date_string (s : jsstring) : bool :=
  match s with
  | y1 :: y2 :: y3 :: y4 :: h1 :: m1 :: m2 :: h2 :: d1 :: d2 :: time =>
      forallb is_digit [y1; y2; y3; y4; m1; m2; d1; d2]
      && (h1 =? chr "-") && (h2 =? chr "-")
      && match time with
         | [] => true
         | sp :: hh1 :: hh2 :: c1 :: mm1 :: mm2 :: seconds =>
             (sp =? chr " ") && forallb is_digit [hh1; hh2; mm1; mm2]
             && (c1 =? chr ":")
             && match seconds with
                | [] => true
                | [c2; s1; s2] => (c2 =? chr ":") && is_digit s1 && is_digit s2
                | _ => false
                end
         | _ => false
         end
  | _ => false
  end.

(** What the class needs from the host's [Date] and [Number]. *)
Class Host := {
  (** [new Date(s).getTime()]; [None] stands for NaN. *)
  Date_parse : jsstring → option Z;
  (** [d.toISOString()] of a Date with the given time value. *)
  Date_toISOString : Z → jsstring;
  (** [String(n)] of an integer of magnitude 10^21 or more. *)
  Number_toString_large : Z → jsstring
}.

Definition validatePositiveInteger (value : number) : result Z :=
  match value with
  | NonInteger => Throw (NotAnInteger value)
  | Int z => if (z <? 0)%Z then Throw (NotPositiveInteger value) else Ok z
  end.

Definition validatePriority (priority : number) : result Z :=
  z ← validatePositiveInteger priority;
  if ((z <? 0) || (z >? 7))%Z then Throw (NotValidPriority priority) else Ok z.

(** A [JournalDDateString | Date] value; a Date carries its time value,
    [None] when it is an Invalid Date. *)
Inductive date_value :=
  | DateString (s : jsstring)
  | DateObject (t : option Z).

Inductive priority_value :=
  | Single (p : number)
  | Range (from to : number).

Record JournalCtlOptions := {
  opt_all : option bool;
  opt_lines : option number;
  opt_since : option date_value;
  opt_until : option date_value;
  opt_identifier : option jsstring;
  opt_unit : option jsstring;
  opt_filter : option (list (jsstring * jsstring));
  opt_priority : option priority_value
}.

(** [options = {}] *)
Definition no_options : JournalCtlOptions :=
  {| opt_all := None; opt_lines := None; opt_since := None; opt_until := None;
     opt_identifier := None; opt_unit := None; opt_filter := None;
     opt_priority := None |}.

(** The options with one of them replaced. *)
Definition set_opt_lines (n : option number) (o : JournalCtlOptions) : JournalCtlOptions :=
  {| opt_all := opt_all o; opt_lines := n; opt_since := opt_since o;
     opt_until := opt_until o; opt_identifier := opt_identifier o;
     opt_unit := opt_unit o; opt_filter := opt_filter o; opt_priority := opt_priority o |}.

Definition set_opt_identifier (i : option jsstring) (o : JournalCtlOptions) : JournalCtlOptions :=
  {| opt_all := opt_all o; opt_lines := opt_lines o; opt_since := opt_since o;
     opt_until := opt_until o; opt_identifier := i;
     opt_unit := opt_unit o; opt_filter := opt_filter o; opt_priority := opt_priority o |}.

Definition set_opt_since (d : option date_value) (o : JournalCtlOptions) : JournalCtlOptions :=
  {| opt_all := opt_all o; opt_lines := opt_lines o; opt_since := d;
     opt_until := opt_until o; opt_identifier := opt_identifier o;
     opt_unit := opt_unit o; opt_filter := opt_filter o; opt_priority := opt_priority o |}.

Definition set_opt_until (d : option date_value) (o : JournalCtlOptions) : JournalCtlOptions :=
  {| opt_all := opt_all o; opt_lines := opt_lines o; opt_since := opt_since o;
     opt_until := d; opt_identifier := opt_identifier o;
     opt_unit := opt_unit o; opt_filter := opt_filter o; opt_priority := opt_priority o |}.

Definition set_opt_unit (u : option jsstring) (o : JournalCtlOptions) : JournalCtlOptions :=
  {| opt_all := opt_all o; opt_lines := opt_lines o; opt_since := opt_since o;
     opt_until := opt_until o; opt_identifier := opt_identifier o;
     opt_unit := u; opt_filter := opt_filter o; opt_priority := opt_priority o |}.

Definition set_opt_priority (p : option priority_value) (o : JournalCtlOptions) : JournalCtlOptions :=
  {| opt_all := opt_all o; opt_lines := opt_lines o; opt_since := opt_since o;
     opt_until := opt_until o; opt_identifier := opt_identifier o;
     opt_unit := opt_unit o; opt_filter := opt_filter o; opt_priority := p |}.

(** The value of an optional string or Date when it is truthy: the empty
    string is falsy, every Date object is truthy. *)
Definition truthy_date (d : option date_value) : option date_value :=
  match d with
  | Some (DateString []) => None
  | _ => d
  end.

Definition truthy_string (s : option jsstring) : option jsstring :=
  match s with
  | Some [] => None
  | _ => s
  end.

(** [s.replace(/T|\.\d\d\dZ/g, ' ')] *)
Fixpoint replace_T_and_millis (s : jsstring) : jsstring :=
  match s with
  | [] => []
  | c :: rest =>
      if c =? chr "T" then chr " " :: replace_T_and_millis rest
      else
        match rest with
        | d1 :: d2 :: d3 :: z :: rest' =>
            if (c =? chr ".") && is_digit d1 && is_digit d2 && is_digit d3
               && (z =? chr "Z")
            then chr " " :: replace_T_and_millis rest'
            else c :: replace_T_and_millis rest
        | _ => c :: replace_T_and_millis rest
        end
  end.

Section Constructor.
Context `{Host}.

Definition Number_toString (z : Z) : jsstring :=
  if (Z.abs z <? 10 ^ 21)%Z
  then (if (z <? 0)%Z then [chr "-"] else []) ++ decimal (Z.abs_N z)
  else Number_toString_large z.

Definition validateDate (dateString : jsstring) : result jsstring :=
  if negb (is_date_string dateString) then Throw (NotValidDate dateString)
  else
    match Date_parse dateString with
    | None => Throw (NotValidDate dateString)
    | Some _ => Ok dateString
    end.

(** [d.toISOString()], a RangeError on an Invalid Date. *)
Definition toISOString (t : option Z) : result jsstring :=
  match t with
  | Some t => Ok (Date_toISOString t)
  | None => Throw InvalidTimeValue
  end.

(** The [dateString] of lines 159 and 173. *)
Definition dateString_of (d : date_value) : result jsstring :=
  match d with
  | DateString s => validateDate s
  | DateObject t => (λ iso, trim (replace_T_and_millis iso)) <$> toISOString t
  end.

(** [(typeof d == 'string' ? new Date(d) : d).getTime()] *)
Definition getTime (d : date_value) : option Z :=
  match d with
  | DateString s => Date_parse s
  | DateObject t => t
  end.

(** [a > b] on time values: false when either is NaN. *)
Definition time_gt (a b : option Z) : bool :=
  match a, b with
  | Some x, Some y => (x >? y)%Z
  | _, _ => false
  end.

Definition push_until (options : JournalCtlOptions) (args : list jsstring)
  : result (list jsstring) :=
  match truthy_date (opt_until options) with
  | Some u => dateString ← dateString_of u; Ok (args ++ [js "-U"; dateString])
  | None => Ok (args ++ [js "-f"])
  end.

Definition push_all (options : JournalCtlOptions) (args : list jsstring)
  : list jsstring :=
  match opt_all options with
  | Some true => args ++ [js "-a"]
  | _ => args
  end.

Definition push_lines (options : JournalCtlOptions) (args : list jsstring)
  : result (list jsstring) :=
  match truthy_date (opt_until options), truthy_date (opt_since options),
        opt_lines options with
  | None, None, None => Ok (args ++ [js "-n"; Number_toString 10])
  | _, _, Some n =>
      z ← validatePositiveInteger n; Ok (args ++ [js "-n"; Number_toString z])
  | _, _, None => Ok args
  end.

Definition push_since (options : JournalCtlOptions) (args : list jsstring)
  : result (list jsstring) :=
  match truthy_date (opt_since options) with
  | Some s => dateString ← dateString_of s; Ok (args ++ [js "-S"; dateString])
  | None => Ok args
  end.

Definition check_since_until (options : JournalCtlOptions) : result () :=
  match truthy_date (opt_since options), truthy_date (opt_until options) with
  | Some s, Some u =>
      if time_gt (getTime s) (getTime u) then Throw SinceMoreRecentThanUntil
      else Ok ()
  | _, _ => Ok ()
  end.

Definition push_priority (options : JournalCtlOptions) (args : list jsstring)
  : result (list jsstring) :=
  match opt_priority options with
  | None => Ok args
  | Some (Single p) =>
      z ← validatePriority p; Ok (args ++ [js "-p"; Number_toString z])
  | Some (Range from to) =>
      f ← validatePriority from;
      t ← validatePriority to;
      Ok (args ++ [js "-p"; Number_toString f ++ js ".." ++ Number_toString t])
  end.

Definition push_identifier (options : JournalCtlOptions) (args : list jsstring)
  : result (list jsstring) :=
  match opt_identifier options with
  | Some i => i' ← validateSyslogIdentifier i; Ok (args ++ [js "-t"; i'])
  | None => Ok args
  end.

Definition push_unit (options : JournalCtlOptions) (args : list jsstring)
  : result (list jsstring) :=
  match truthy_string (opt_unit options) with
  | Some u => u' ← validateUnit u; Ok (args ++ [js "-u"; u'])
  | None => Ok args
  end.

(** [for (let key in options.filter)], the keys in enumeration order. *)
Fixpoint push_filters (filter : list (jsstring * jsstring)) (args : list jsstring)
  : result (list jsstring) :=
  match filter with
  | [] => Ok args
  | (key, val) :: rest =>
      k ← validateFieldName key;
      push_filters rest (args ++ [k ++ js "=" ++ val])
  end.

Definition push_filter (options : JournalCtlOptions) (args : list jsstring)
  : result (list jsstring) :=
  match opt_filter options with
  | Some f => push_filters f args
  | None => Ok args
  end.

(** [outputFields.forEach(...)] *)
Fixpoint push_fields (fields : list jsstring) (args : list jsstring)
  : result (list jsstring) :=
  match fields with
  | [] => Ok args
  | fieldName :: rest =>
      f ← validateFieldName fieldName;
      push_fields rest (args ++ [js "--output-field"; f])
  end.

Definition push_missing (name : jsstring) (fields : list jsstring)
  (args : list jsstring) : list jsstring :=
  if bool_decide (name ∈ fields) then args
  else args ++ [js "--output-field"; name].

Definition push_outputFields (outputFields : option (list jsstring))
  (args : list jsstring) : result (list jsstring) :=
  match outputFields with
  | Some fields =>
      args ← push_fields fields args;
      Ok (push_missing (js "_HOSTNAME") fields
           (push_missing (js "SYSLOG_IDENTIFIER") fields
             (push_missing (js "MESSAGE") fields args)))
  | None => Ok args
  end.

(** Lines 156-203 of the constructor: the argument list, or the error
    thrown on the way. *)
Definition build_args (options : JournalCtlOptions)
  (outputFields : option (list jsstring)) : result (list jsstring) :=
  args ← push_until options [js "-o"; js "json"];
  args ← push_lines options (push_all options args);
  args ← push_since options args;
  _ ← check_since_until options;
  args ← push_priority options args;
  args ← push_identifier options args;
  args ← push_unit options args;
  args ← push_filter options args;
  push_outputFields outputFields args.

(** The argument list is built in steps that only append.  The tokens of
    the options handled before the line count (lines 158-165) and after
    it (lines 172-203), each on its own: *)
Definition args_before_lines (options : JournalCtlOptions)
  : result (list jsstring) :=
  push_all options <$> push_until options [js "-o"; js "json"].

Definition args_after_lines (options : JournalCtlOptions)
  (outputFields : option (list jsstring)) : result (list jsstring) :=
  args ← push_since options [];
  _ ← check_since_until options;
  args ← push_priority options args;
  args ← push_identifier options args;
  args ← push_unit options args;
  args ← push_filter options args;
  push_outputFields outputFields args.

(** and those handled before the priority (lines 158-180) and after it
    (lines 189-203). *)
Definition args_before_priority (options : JournalCtlOptions)
  : result (list jsstring) :=
  args ← push_until options [js "-o"; js "json"];
  args ← push_lines options (push_all options args);
  args ← push_since options args;
  _ ← check_since_until options;
  Ok args.

Definition args_after_priority (options : JournalCtlOptions)
  (outputFields : option (list jsstring)) : result (list jsstring) :=
  args ← push_identifier options [];
  args ← push_unit options args;
  args ← push_filter options args;
  push_outputFields outputFields args.
End Constructor.

(** ** The instance: EventEmitter, process supervisor, generator *)

(** The payload of an emission; an Error is kept as its message. *)
Inductive signal :=
  | SMessage (message : entry)
  | SError (message : jsstring)
  | SExit.

Inductive JournalCtlEvent := message | exit | error.

#[global] Instance JournalCtlEvent_eq_dec : EqDecision JournalCtlEvent.
Proof. solve_decision. Defined.

Definition event_of (s : signal) : JournalCtlEvent :=
  match s with
  | SMessage _ => message
  | SError _ => error
  | SExit => exit
  end.

(** A registered callback: one of the integrator, which records what it
    is called with and returns, or one of the three that the body of
    [createGenerator] registers (lines 289-299). *)
Inductive listener :=
  | Subscriber (id : nat)
  | GeneratorOnError
  | GeneratorOnMessage
  | GeneratorOnExit.

(** A promise of the generator: pending, or resolved with a message or
    with [undefined]. *)
Inductive promise :=
  | Pending
  | Resolved (value : option entry).

(** The instance, with the promises its generator has created (a promise
    is named by its position) and the local variables of the body of
    [createGenerator]: only one body ever runs past line 278. *)
Record JournalCtl := {
  journalCtl : list jsstring;
  stdErrorText : option jsstring;
  generatorInstanceExtists : bool;
  listeners : list (JournalCtlEvent * listener);
  promises : list promise;
  totalEntries : nat;
  resolve : nat;
  messagePromises : list nat;
  received : list (nat * signal)
}.

Definition set_stdErrorText (t : option jsstring) (j : JournalCtl) : JournalCtl :=
  {| journalCtl := journalCtl j; stdErrorText := t;
     generatorInstanceExtists := generatorInstanceExtists j;
     listeners := listeners j; promises := promises j;
     totalEntries := totalEntries j; resolve := resolve j;
     messagePromises := messagePromises j; received := received j |}.

Definition set_generatorInstanceExtists (b : bool) (j : JournalCtl) : JournalCtl :=
  {| journalCtl := journalCtl j; stdErrorText := stdErrorText j;
     generatorInstanceExtists := b;
     listeners := listeners j; promises := promises j;
     totalEntries := totalEntries j; resolve := resolve j;
     messagePromises := messagePromises j; received := received j |}.

Definition set_listeners (l : list (JournalCtlEvent * listener)) (j : JournalCtl)
  : JournalCtl :=
  {| journalCtl := journalCtl j; stdErrorText := stdErrorText j;
     generatorInstanceExtists := generatorInstanceExtists j;
     listeners := l; promises := promises j;
     totalEntries := totalEntries j; resolve := resolve j;
     messagePromises := messagePromises j; received := received j |}.

Definition set_promises (ps : list promise) (j : JournalCtl) : JournalCtl :=
  {| journalCtl := journalCtl j; stdErrorText := stdErrorText j;
     generatorInstanceExtists := generatorInstanceExtists j;
     listeners := listeners j; promises := ps;
     totalEntries := totalEntries j; resolve := resolve j;
     messagePromises := messagePromises j; received := received j |}.

Definition set_totalEntries (n : nat) (j : JournalCtl) : JournalCtl :=
  {| journalCtl := journalCtl j; stdErrorText := stdErrorText j;
     generatorInstanceExtists := generatorInstanceExtists j;
     listeners := listeners j; promises := promises j;
     totalEntries := n; resolve := resolve j;
     messagePromises := messagePromises j; received := received j |}.

Definition set_resolve (p : nat) (j : JournalCtl) : JournalCtl :=
  {| journalCtl := journalCtl j; stdErrorText := stdErrorText j;
     generatorInstanceExtists := generatorInstanceExtists j;
     listeners := listeners j; promises := promises j;
     totalEntries := totalEntries j; resolve := p;
     messagePromises := messagePromises j; received := received j |}.

Definition set_messagePromises (q : list nat) (j : JournalCtl) : JournalCtl :=
  {| journalCtl := journalCtl j; stdErrorText := stdErrorText j;
     generatorInstanceExtists := generatorInstanceExtists j;
     listeners := listeners j; promises := promises j;
     totalEntries := totalEntries j; resolve := resolve j;
     messagePromises := q; received := received j |}.

Definition set_received (r : list (nat * signal)) (j : JournalCtl) : JournalCtl :=
  {| journalCtl := journalCtl j; stdErrorText := stdErrorText j;
     generatorInstanceExtists := generatorInstanceExtists j;
     listeners := listeners j; promises := promises j;
     totalEntries := totalEntries j; resolve := resolve j;
     messagePromises := messagePromises j; received := r |}.

(** [EventEmitter.prototype.on] *)
Definition on (ev : JournalCtlEvent) (l : listener) (j : JournalCtl) : JournalCtl :=
  set_listeners (listeners j ++ [(ev, l)]) j.

(** Calling the resolve function of promise [p]: only a pending promise
    changes. *)
Definition settle (p : nat) (v : option entry) (j : JournalCtl) : JournalCtl :=
  match promises j !! p with
  | Some Pending => set_promises (<[p := Resolved v]> (promises j)) j
  | _ => j
  end.

(** [createPromise()] (line 286): a new pending promise, whose resolve
    function is stored in [resolve]. *)
Definition createPromise (j : JournalCtl) : nat * JournalCtl :=
  let p := length (promises j) in
  (p, set_resolve p (set_promises (promises j ++ [Pending]) j)).

(** [messagePromises.push(createPromise())] *)
Definition push_createPromise (j : JournalCtl) : JournalCtl :=
  let '(p, j) := createPromise j in
  set_messagePromises (messagePromises j ++ [p]) j.

(** A listener is called with a signal: a subscriber records it, the
    listeners of the generator are the arrow functions of lines 289-299. *)
Definition call (l : listener) (s : signal) (j : JournalCtl) : JournalCtl :=
  match l with
  | Subscriber id => set_received (received j ++ [(id, s)]) j
  | GeneratorOnError => settle (resolve j) None j
  | GeneratorOnMessage =>
      match s with
      | SMessage m =>
          let oldResolve := resolve j in
          let j := push_createPromise j in
          let j := set_totalEntries (S (totalEntries j)) j in
          settle oldResolve (Some m) j
      | _ => j
      end
  | GeneratorOnExit => settle (resolve j) None j
  end.

(** How a handler ends: normally, or with an exception nobody caught. *)
Inductive completion :=
  | Normal (j : JournalCtl)
  | Uncaught (e : jsstring) (j : JournalCtl).

Definition and_then (c : completion) (k : JournalCtl → completion) : completion :=
  match c with
  | Normal j => k j
  | Uncaught e j => Uncaught e j
  end.

Definition try_catch (c : completion) (handler : JournalCtl → completion)
  : completion :=
  match c with
  | Normal j => Normal j
  | Uncaught _ j => handler j
  end.

Definition listeners_of (ev : JournalCtlEvent) (j : JournalCtl) : list listener :=
  snd <$> filter (λ r, fst r = ev) (listeners j).

(** [EventEmitter.prototype.emit]: the listeners of the event are called
    in the order of their registration; an ['error'] without a listener
    is thrown. *)
Definition emit (s : signal) (j : JournalCtl) : completion :=
  match listeners_of (event_of s) j, s with
  | [], SError e => Uncaught e j
  | ls, _ => Normal (foldl (λ j l, call l s j) j ls)
  end.

(** [a ?? b] *)
Definition nullish {A} (a : option A) (b : A) : A :=
  match a with
  | Some x => x
  | None => b
  end.

Section Supervisor.
Context `{Host}.

(** The end of the constructor (lines 207-246), once the arguments are
    built. *)
Definition spawned (args : list jsstring) : JournalCtl :=
  {| journalCtl := args; stdErrorText := Some [];
     generatorInstanceExtists := false; listeners := [];
     promises := []; totalEntries := 0; resolve := 0;
     messagePromises := []; received := [] |}.

(** [new JournalCtl(options, outputFields)]; the second component is
    the list of processes spawned. *)
Definition new_JournalCtl (options : JournalCtlOptions)
  (outputFields : option (list jsstring)) (processes : list (list jsstring))
  : result JournalCtl * list (list jsstring) :=
  match build_args options outputFields with
  | Ok args => (Ok (spawned args), processes ++ [js "journalctl" :: args])
  | Throw e => (Throw e, processes)
  end.

(** [stderr.on('data', ...)] (lines 211-213) *)
Definition on_stderr_data (chunk : jsstring) (j : JournalCtl) : completion :=
  Normal (set_stdErrorText
            (Some (nullish (stdErrorText j) (js "null") ++ chunk)) j).

(** [journalCtl.on("exit", ...)] (lines 215-220); [code] is [None] for
    [null]. *)
Definition on_process_exit (code : option Z) (j : JournalCtl) : completion :=
  match code with
  | Some c =>
      if bool_decide (c ≠ 0%Z) then
        and_then
          (emit (SError (nullish (stdErrorText j)
                           (js "Process exited with code " ++ Number_toString c))) j)
          (emit SExit)
      else emit SExit j
  | None => emit SExit j
  end.

(** [journalCtl.on("error", ...)] (lines 222-230) *)
Definition on_process_error (err : jsstring) (j : JournalCtl) : completion :=
  if includes (js "ENOENT") err then
    emit (SError (js "journalctl executable not found. Is this a systemd distribution?")) j
  else if includes (js "EACCES") err then
    emit (SError (js "journalctl executable not accessible.")) j
  else emit (SError err) j.

(** [lineReader.on('line', ...)] (lines 234-244) *)
Definition on_line (line : jsstring) (j : JournalCtl) : completion :=
  try_catch
    match parse_line line with
    | Some m => emit (SMessage m) j
    | None => Uncaught (js "SyntaxError or TypeError") j
    end
    (emit (SError (js "Could not parse JSON: " ++ line))).
End Supervisor.

(** *** createGenerator (lines 275-306) *)

(** Where the body of an async generator stands: not yet started,
    suspended at its [yield], waiting at its [await], or finished. *)
Inductive generator :=
  | SuspendedStart
  | SuspendedYield
  | Awaiting (p : nat)
  | Completed.

(** How a [next()] request is settled. *)
Inductive next_result :=
  | Yielded (value : entry)
  | Returned (totalEntries : nat)
  | Rejected (e : thrown)
  | Done.

(** [createGenerator()] itself.  The method is an [async function*]:
    calling it runs none of its body (ECMA-262, AsyncGeneratorStart); it
    returns a generator object suspended at the start, and the body, the
    check of line 276 included, runs with the first [next()]. *)
Definition createGenerator (j : JournalCtl) : generator * JournalCtl :=
  (SuspendedStart, j).

(** Lines 276-299, run by the first [next()]. *)
Definition generator_start (j : JournalCtl) : result JournalCtl :=
  if generatorInstanceExtists j then Throw OnlyOneGenerator
  else
    let j := set_generatorInstanceExtists true j in
    let j := set_totalEntries 0 j in
    let j := set_messagePromises [] j in
    let j := push_createPromise j in
    Ok (on exit GeneratorOnExit
         (on message GeneratorOnMessage
           (on error GeneratorOnError j))).

(** The [await] of line 302 on promise [p]: the request stays open while
    the promise is pending. *)
Definition generator_await (p : nat) (j : JournalCtl)
  : generator * option next_result :=
  match promises j !! p with
  | Some (Resolved (Some m)) => (SuspendedYield, Some (Yielded m))
  | Some (Resolved None) => (Completed, Some (Returned (totalEntries j)))
  | _ => (Awaiting p, None)
  end.

(** [result = await messagePromises.shift()]: an empty queue shifts
    [undefined], which ends the loop. *)
Definition generator_shift (j : JournalCtl)
  : generator * option next_result * JournalCtl :=
  match messagePromises j with
  | [] => (Completed, Some (Returned (totalEntries j)), j)
  | p :: rest =>
      let j := set_messagePromises rest j in
      (generator_await p j, j)
  end.

(** The body of the generator runs as far as it can: on [g.next()] of a
    consumer that waits for each request to settle before it makes the
    next one, as [for await] does, or when it resumes at its [await].
    [None] is a request that stays open. *)
Definition next (g : generator) (j : JournalCtl)
  : generator * option next_result * JournalCtl :=
  match g with
  | SuspendedStart =>
      match generator_start j with
      | Throw e => (Completed, Some (Rejected e), j)
      | Ok j => generator_shift j
      end
  | SuspendedYield => generator_shift j
  | Awaiting p => (generator_await p j, j)
  | Completed => (Completed, Some Done, j)
  end.

(** *** Runs *)

(** What happens in a run: the process writes a line or a chunk of its
    standard error, exits or fails to start; or the body of the generator
    runs ([Next]), for a request of the consumer or because the promise it
    waits for has been settled.  The handlers of several lines may run
    before the body does: the order of the actions is the order in which
    the event loop runs them. *)
Inductive action :=
  | Line (line : jsstring)
  | StderrData (chunk : jsstring)
  | ProcessExit (code : option Z)
  | ProcessError (err : jsstring)
  | Next.

(** An instance with one generator object and its consumer.  [settled]
    lists the results of the consumer's requests; [crashed] holds the
    exception that ended the program. *)
Record system := {
  instance : JournalCtl;
  gen : generator;
  settled : list next_result;
  crashed : option jsstring
}.

Definition record_result (r : option next_result) (l : list next_result)
  : list next_result :=
  match r with
  | Some r => l ++ [r]
  | None => l
  end.

(** The system after a handler of the instance has run. *)
Definition after_handler (c : completion) (s : system) : system :=
  match c with
  | Uncaught e j =>
      {| instance := j; gen := gen s; settled := settled s; crashed := Some e |}
  | Normal j =>
      {| instance := j; gen := gen s; settled := settled s; crashed := None |}
  end.

Section Runs.
Context `{Host}.

(** What an action of the process does to the instance. *)
Definition handle (a : action) (j : JournalCtl) : completion :=
  match a with
  | Line line => on_line line j
  | StderrData chunk => on_stderr_data chunk j
  | ProcessExit code => on_process_exit code j
  | ProcessError err => on_process_error err j
  | Next => Normal j
  end.

(** One action of a run; after an uncaught exception nothing runs. *)
Definition perform (s : system) (a : action) : system :=
  match crashed s with
  | Some _ => s
  | None =>
      match a with
      | Next =>
          let '(g, r, j) := next (gen s) (instance s) in
          {| instance := j; gen := g; settled := record_result r (settled s);
             crashed := None |}
      | _ => after_handler (handle a (instance s)) s
      end
  end.

Definition perform_all (s : system) (actions : list action) : system :=
  foldl perform s actions.

(** The consumer draws until the queue is used up. *)
Definition drain (s : system) : system :=
  perform_all s (replicate (S (length (messagePromises (instance s)))) Next).
End Runs.

(** The records a consumer has drawn from the generator. *)
Definition yielded (l : list next_result) : list entry :=
  omap (λ r, match r with Yielded m => Some m | _ => None end) l.

(** What subscriber [id] has been called with, in order. *)
Definition signals_of (id : nat) (j : JournalCtl) : list signal :=
  omap (λ r, if decide (fst r = id) then Some (snd r) else None) (received j).

(** The records among the signals. *)
Definition records (l : list signal) : list entry :=
  omap (λ s, match s with SMessage m => Some m | _ => None end) l.

(** The records that come before the first error or exit signal. *)
Fixpoint records_before_end (l : list signal) : list entry :=
  match l with
  | SMessage m :: l' => m :: records_before_end l'
  | _ => []
  end.

(** A subscriber registered for the three events. *)
Definition subscribe (id : nat) (j : JournalCtl) : JournalCtl :=
  on exit (Subscriber id) (on error (Subscriber id) (on message (Subscriber id) j)).

(** A new instance with subscriber 0, and a generator object on which
    [next()] has not been called yet. *)
Definition initial (args : list jsstring) : system :=
  {| instance := subscribe 0 (spawned args);
     gen := fst (createGenerator (subscribe 0 (spawned args)));
     settled := []; crashed := None |}.

(** JSON text written with apostrophes for its double quotes. *)
Definition json (s : string) : jsstring :=
  (λ c, if c =? chr "'" then QUOTE else c) <$> js s.
Arguments json s%_string : simpl never.

(** *** A host for the examples

    A host whose local time zone is UTC: a date string of the validated
    format that names a real calendar day and time of day denotes its UTC
    instant in milliseconds since the epoch. *)

Definition two_digits (a b : N) : Z := Z.of_N (10 * (a - chr "0") + (b - chr "0")).

Definition days_from_civil (y m d : Z) : Z :=
  let y' := if (m <=? 2)%Z then (y - 1)%Z else y in
  let era := (y' / 400)%Z in
  let yoe := (y' - era * 400)%Z in
  let doy := ((153 * (m + (if (m >? 2)%Z then -3 else 9)) + 2) / 5 + d - 1)%Z in
  let doe := (yoe * 365 + yoe / 4 - yoe / 100 + doy)%Z in
  (era * 146097 + doe - 719468)%Z.

Definition is_leap (y : Z) : bool :=
  ((y mod 4 =? 0) && (negb (y mod 100 =? 0) || (y mod 400 =? 0)))%Z.

Definition days_in_month (y m : Z) : Z :=
  if (m =? 2)%Z then (if is_leap y then 29 else 28)%Z
  else if ((m =? 4) || (m =? 6) || (m =? 9) || (m =? 11))%Z then 30%Z
  else 31%Z.

Definition utc_millis (y m d hh mm ss : Z) : option Z :=
  if ((1 <=? m) && (m <=? 12) && (1 <=? d) && (d <=? days_in_month y m)
      && (hh <=? 23) && (mm <=? 59) && (ss <=? 59))%Z
  then Some ((((days_from_civil y m d * 24 + hh) * 60 + mm) * 60 + ss) * 1000)%Z
  else None.

Definition sample_Date_parse (s : jsstring) : option Z :=
  if negb (is_date_string s) then None
  else
    match s with
    | y1 :: y2 :: y3 :: y4 :: _ :: m1 :: m2 :: _ :: d1 :: d2 :: time =>
        let y := (100 * two_digits y1 y2 + two_digits y3 y4)%Z in
        let m := two_digits m1 m2 in
        let d := two_digits d1 d2 in
        match time with
        | _ :: h1 :: h2 :: _ :: n1 :: n2 :: seconds =>
            let ss := match seconds with
                      | [_; s1; s2] => two_digits s1 s2
                      | _ => 0%Z
                      end in
            utc_millis y m d (two_digits h1 h2) (two_digits n1 n2) ss
        | _ => utc_millis y m d 0 0 0
        end
    | _ => None
    end.

(** [z] in decimal, padded with zeros to [width] digits. *)
Definition padded (width : nat) (z : Z) : jsstring :=
  let ds := decimal (Z.to_N z) in
  replicate (width - length ds) (chr "0") ++ ds.

Definition sample_toISOString (t : Z) : jsstring :=
  let days := (t / 86400000)%Z in
  let ms := (t mod 86400000)%Z in
  let z := (days + 719468)%Z in
  let era := (z / 146097)%Z in
  let doe := (z - era * 146097)%Z in
  let yoe := ((doe - doe / 1460 + doe / 36524 - doe / 146096) / 365)%Z in
  let doy := (doe - (365 * yoe + yoe / 4 - yoe / 100))%Z in
  let mp := ((5 * doy + 2) / 153)%Z in
  let d := (doy - (153 * mp + 2) / 5 + 1)%Z in
  let m := (mp + (if (mp <? 10)%Z then 3 else -9))%Z in
  let y := (yoe + era * 400 + (if (m <=? 2)%Z then 1 else 0))%Z in
  let year := if ((0 <=? y) && (y <=? 9999))%Z then padded 4 y
              else (if (y <? 0)%Z then [chr "-"] else [chr "+"]) ++ padded 6 (Z.abs y) in
  year ++ js "-" ++ padded 2 m ++ js "-" ++ padded 2 d ++ js "T"
  ++ padded 2 (ms / 3600000) ++ js ":" ++ padded 2 (ms / 60000 mod 60)
  ++ js ":" ++ padded 2 (ms / 1000 mod 60) ++ js "." ++ padded 3 (ms mod 1000)
  ++ js "Z".

(** The examples print no number of magnitude 10^21 or more, for which
    this host has a stand-in. *)
Definition sample_host : Host :=
  {| Date_parse := sample_Date_parse;
     Date_toISOString := sample_toISOString;
     Number_toString_large :=
       λ z, (if (z <? 0)%Z then [chr "-"] else []) ++ decimal (Z.abs_N z) |}.

(** Whether the constructor throws on the sample host. *)
Definition throws (options : JournalCtlOptions) (outputFields : option (list jsstring)) : bool :=
  match @build_args sample_host options outputFields with
  | Throw _ => true
  | Ok _ => false
  end.

(** ** The priority levels (JournalDEntry.ts, lines 1-21) *)

Definition EMERG : Z := 0.
Definition ALERT : Z := 1.
Definition CRIT : Z := 2.
Definition ERROR : Z := 3.
Definition WARNING : Z := 4.
Definition NOTICE : Z := 5.
Definition INFO : Z := 6.
Definition DEBUG : Z := 7.

Definition JOURNALD_PRIORITY_STRING : list jsstring :=
  [js "EMERG"; js "ALERT"; js "CRIT"; js "ERROR"; js "WARNING"; js "NOTICE";
   js "INFO"; js "DEBUG"].

(** ** Notions used in the proofs *)

(** *** Texts *)

(** A run of white space in the sense of [\s]. *)
Definition spaces (ws : jsstring) : Prop := Forall (λ c, is_js_space c = true) ws.

(** The code units between the last value of a line and its end: white
    space, the closing brace and the comma. *)
Definition filler (c : N) : Prop :=
  is_js_space c = true ∨ c = chr "}" ∨ c = chr ",".

(** Inside a string literal. *)
Definition in_string (m : lex_mode) : bool :=
  match m with
  | LString _ | LEscape _ | LUnicode _ _ _ => true
  | _ => false
  end.

(** What a closing brace read between two tokens leaves at the end of the
    text. *)
Definition closing (p : pstate) : option value := feed TRBrace p ≫= result_of.

(** The parser state once the token that is being read has ended. *)
Definition token_end (s : machine) : option pstate :=
  match s with
  | (LIdle, p) => Some p
  | (LNumber st acc, p) =>
      if num_final st then feed (TScalar (VNum acc)) p else None
  | _ => None
  end.

(** The four keys that the journal itself puts on every entry. *)
Definition guaranteed_from_journal : list jsstring :=
  [js "__CURSOR"; js "__REALTIME_TIMESTAMP"; js "__MONOTONIC_TIMESTAMP"; js "_BOOT_ID"].

(** *** Argument lists *)

(** A step that only appends to the argument list. *)
Definition appends (f : list jsstring → result (list jsstring)) : Prop :=
  ∀ a, f a = (a ++.) <$> f [].

(** *** The options that the constructor accepts *)

(** The eight constants of JournalDEntry.ts. *)
Definition priority_levels : list Z :=
  [EMERG; ALERT; CRIT; ERROR; WARNING; NOTICE; INFO; DEBUG].

Definition accepted_priority (n : number) : Prop := ∃ z, n = Int z ∧ (0 ≤ z ≤ 7)%Z.

Definition accepted_field (k : jsstring) : Prop :=
  k ≠ [] ∧ forallb is_field_char k = true.

Section Acceptance.
Context `{Host}.


End Acceptance.

(** A step of the constructor that does not throw. *)
Definition succeeds {A} (r : result A) : Prop := ∃ a, r = Ok a.

(** *** Tokens *)

(** The three fields that line 200 asks for. *)
Definition forced_fields : list jsstring :=
  [js "MESSAGE"; js "SYSLOG_IDENTIFIER"; js "_HOSTNAME"].

(** The fields that are asked for when [fields] is given. *)
Definition requested_fields (fields : list jsstring) : list jsstring :=
  fields ++ filter (λ name, name ∉ fields) forced_fields.

Definition output_field_tokens (fields : list jsstring) : list jsstring :=
  flat_map (λ f, [js "--output-field"; f]) fields.

Definition filter_tokens (f : list (jsstring * jsstring)) : list jsstring :=
  (λ kv, fst kv ++ js "=" ++ snd kv) <$> f.

(** [YYYY-MM-DDTHH:mm:ss.sssZ], what [toISOString] gives for the years 0
    to 9999. *)
Definition is_iso_string (s : jsstring) : bool :=
  match s with
  | [y1; y2; y3; y4; h1; m1; m2; h2; d1; d2; t; hh1; hh2; c1; mm1; mm2; c2; s1; s2;
     dot; f1; f2; f3; z] =>
      forallb is_digit [y1; y2; y3; y4; m1; m2; d1; d2; hh1; hh2; mm1; mm2; s1; s2;
                        f1; f2; f3]
      && (h1 =? chr "-") && (h2 =? chr "-") && (t =? chr "T") && (c1 =? chr ":")
      && (c2 =? chr ":") && (dot =? chr ".") && (z =? chr "Z")
  | _ => false
  end.

(** The record of a parsed object, with the two defaults. *)
Definition with_defaults (e : entry) : entry :=
  default_empty (js "_HOSTNAME") (default_empty (js "MESSAGE") e).

(** *** The signals of a run *)

(** The message of the error that follows a failure to start the
    process. *)
Definition spawn_error_message (err : jsstring) : jsstring :=
  if includes (js "ENOENT") err
  then js "journalctl executable not found. Is this a systemd distribution?"
  else if includes (js "EACCES") err then js "journalctl executable not accessible."
  else err.

(** What the handler of an action emits when [text] has been written to
    the standard error so far. *)
Definition signalled (a : action) (text : jsstring) : list signal :=
  match a with
  | Line line =>
      match parse_line line with
      | Some m => [SMessage m]
      | None => [SError (js "Could not parse JSON: " ++ line)]
      end
  | ProcessExit (Some c) =>
      if bool_decide (c ≠ 0%Z) then [SError text; SExit] else [SExit]
  | ProcessExit None => [SExit]
  | ProcessError err => [SError (spawn_error_message err)]
  | StderrData _ | Next => []
  end.

(** What an action writes to the standard error. *)
Definition written (a : action) : jsstring :=
  match a with
  | StderrData chunk => chunk
  | _ => []
  end.

Fixpoint signals_from (text : jsstring) (actions : list action) : list signal :=
  match actions with
  | [] => []
  | a :: rest => signalled a text ++ signals_from (text ++ written a) rest
  end.

(** The chunks of standard error of a run, one after the other. *)
Definition stderr_text (actions : list action) : jsstring :=
  concat (omap (λ a, match a with StderrData chunk => Some chunk | _ => None end)
            actions).

(** *** The promises of the generator as a function of the signals *)

Local Close Scope N_scope.

(** The listeners of an instance with subscriber 0 and a started
    generator. *)
Definition attached_listeners : list (JournalCtlEvent * listener) :=
  [(message, Subscriber 0); (error, Subscriber 0); (exit, Subscriber 0);
   (error, GeneratorOnError); (message, GeneratorOnMessage);
   (exit, GeneratorOnExit)].

(** The listener of the generator that a signal reaches. *)
Definition generator_listener (s : signal) : listener :=
  match s with
  | SMessage _ => GeneratorOnMessage
  | SError _ => GeneratorOnError
  | SExit => GeneratorOnExit
  end.

(** Settling the newest promise, if it is pending. *)
Definition settle_last (v : option entry) (ps : list promise) : list promise :=
  match ps !! (length ps - 1) with
  | Some Pending => <[length ps - 1 := Resolved v]> ps
  | _ => ps
  end.

(** What a signal does to the promises: a record settles the newest one
    after a new one is made; an error or the exit settles the newest one
    with [undefined]. *)
Definition cell_step (ps : list promise) (s : signal) : list promise :=
  match s with
  | SMessage m => settle_last (Some m) ps ++ [Pending]
  | _ => settle_last None ps
  end.

(** The promises after the signals [l], from the one that the start of
    the generator makes. *)
Definition cells (l : list signal) : list promise := foldl cell_step [Pending] l.

(** A promise that holds a record. *)
Definition fulfilled (m : entry) : promise := Resolved (Some m).

Definition is_record (s : signal) : bool :=
  match s with
  | SMessage _ => true
  | _ => false
  end.

(** What holds of an instance with subscriber 0 once the generator has
    started; [h] promises have been shifted out of the queue. *)
Record attached (j : JournalCtl) (h : nat) : Prop := {
  attached_to : listeners j = attached_listeners;
  attached_promises : promises j = cells (signals_of 0 j);
  attached_resolve : resolve j = length (promises j) - 1;
  attached_queue : messagePromises j = seq h (length (promises j) - h);
  attached_bound : h ≤ length (promises j)
}.

(** The generator has started and follows the signals: it has drawn the
    records of the promises it has shifted, and if it has ended, it has
    ended at a promise settled with [undefined]. *)
Definition following (s : system) : Prop :=
  crashed s = None ∧
  ∃ h, attached (instance s) h
    ∧ (fulfilled <$> yielded (settled s)) `prefix_of` promises (instance s)
    ∧ match gen s with
      | SuspendedStart => False
      | SuspendedYield => h = length (yielded (settled s))
      | Awaiting p => h = S p ∧ p = length (yielded (settled s))
      | Completed =>
          ∃ p, h = S p ∧ p = length (yielded (settled s))
               ∧ promises (instance s) !! p = Some (Resolved None)
      end.

(** The generator has ended, or stands at a pending promise. *)
Definition waiting (s : system) : Prop :=
  gen s = Completed
  ∨ ∃ p, gen s = Awaiting p ∧ promises (instance s) !! p = Some Pending.

(** A bound on the runs of the body before the generator is waiting. *)
Definition draws_left (s : system) : nat :=
  match gen s with
  | SuspendedYield => length (messagePromises (instance s))
  | Awaiting p =>
      match promises (instance s) !! p with
      | Some Pending => 0
      | _ => S (length (messagePromises (instance s)))
      end
  | _ => 0
  end.

(** *** Subscribers *)

#[global] Instance action_eq_dec : EqDecision action.
Proof. solve_decision. Defined.

(** The subscribers among some listeners, in order. *)
Definition subscribers (ls : list listener) : list nat :=
  omap (λ l, match l with Subscriber id => Some id | _ => None end) ls.

(** Subscriber 0, and no other, listens to each of the three events. *)
Definition heard (j : JournalCtl) : Prop :=
  ∀ ev, subscribers (listeners_of ev j) = [0].

(** The count of the generator follows the records; the generator has
    returned once it has ended, and what it has returned lies between what
    the consumer has drawn and what has been counted. *)
Definition counted (s : system) : Prop :=
  totalEntries (instance s) = length (records (signals_of 0 (instance s)))
  ∧ (gen s = Completed → ∃ n, Returned n ∈ settled s)
  ∧ ∀ n, Returned n ∈ settled s →
         gen s = Completed
         ∧ length (yielded (settled s)) ≤ n ≤ totalEntries (instance s).

(** *** A generator that starts late *)

(** The instance with [r0] put before what its subscribers have
    received. *)
Definition prepend (r0 : list (nat * signal)) (j : JournalCtl) : JournalCtl :=
  set_received (r0 ++ received j) j.

Definition prepend_completion (r0 : list (nat * signal)) (c : completion)
  : completion :=
  match c with
  | Normal j => Normal (prepend r0 j)
  | Uncaught e j => Uncaught e (prepend r0 j)
  end.

Definition prepend_system (r0 : list (nat * signal)) (s : system) : system :=
  {| instance := prepend r0 (instance s); gen := gen s; settled := settled s;
     crashed := crashed s |}.

(** The generator has not started: the listeners are those of
    subscriber 0. *)
Definition unstarted (s : system) : Prop :=
  crashed s = None ∧ gen s = SuspendedStart ∧ settled s = []
  ∧ listeners (instance s)
    = [(message, Subscriber 0); (error, Subscriber 0); (exit, Subscriber 0)]
  ∧ generatorInstanceExtists (instance s) = false
  ∧ promises (instance s) = [].

Local Open Scope N_scope.

(** * Properties *)

(** ** Decimal numerals *)



(** ** The trailing-comma replacement *)

Lemma closes_line_spaces ws : spaces ws → closes_line (ws ++ [chr "}"]) = true.
Proof.
  induction 1 as [|c ws Hc _ IH]; simpl; [done|].
  by rewrite Hc.
Qed.

Lemma closes_line_inv s :
  closes_line s = true → ∃ ws, spaces ws ∧ s = ws ++ [chr "}"].
Proof.
  induction s as [|c s IH]; simpl; [done|].
  destruct (is_js_space c) eqn:Hc.
  - intros [ws [Hws ->]]%IH. exists (c :: ws). split; [by apply Forall_cons|done].
  - intros [Hb Hnil%bool_decide_eq_true]%andb_true_iff.
    apply N.eqb_eq in Hb. subst. exists []. split; [apply Forall_nil_2|done].
Qed.

Lemma closes_line_comma x y : closes_line (x ++ chr "," :: y) = false.
Proof.
  induction x as [|c x IH]; simpl; [done|].
  destruct (is_js_space c); [done|].
  apply andb_false_iff. right. apply bool_decide_eq_false. by destruct x.
Qed.

Lemma replace_trailing_comma_match p ws :
  spaces ws →
  replace_trailing_comma (p ++ chr "," :: ws ++ [chr "}"]) = p ++ js " }".
Proof.
  intros Hws. induction p as [|c p IH]; simpl.
  - by rewrite closes_line_spaces.
  - rewrite closes_line_comma, andb_false_r. by rewrite IH.
Qed.

Lemma replace_trailing_comma_cases s :
  replace_trailing_comma s = s ∨
  ∃ q ws, spaces ws ∧ s = q ++ chr "," :: ws ++ [chr "}"].
Proof.
  induction s as [|c s IH]; simpl; [by left|].
  destruct ((c =? chr ",") && closes_line s) eqn:Hm.
  - right. apply andb_true_iff in Hm as [->%N.eqb_eq (ws & Hws & ->)%closes_line_inv].
    by exists [], ws.
  - destruct IH as [->|(q & ws & Hws & ->)]; [by left|].
    right. by exists (c :: q), ws.
Qed.

(** ** The JSON machine *)

(** [chars] computes the code units of the literals in the goal, and
    [split_cmp] decides the comparisons of code units one by one. *)
Ltac chars :=
  repeat match goal with
  | |- context [chr ?s] =>
      let v := eval vm_compute in (chr s) in change (chr s) with v
  | H : context [chr ?s] |- _ =>
      let v := eval vm_compute in (chr s) in change (chr s) with v in H
  | |- context [js ?s] =>
      let v := eval vm_compute in (js s) in change (js s) with v
  end;
  unfold QUOTE in *.

Ltac split_cmp :=
  repeat (match goal with
  | |- context [N.eqb ?a ?b] => destruct (N.eqb_spec a b)
  | |- context [N.leb ?a ?b] => destruct (N.leb_spec a b)
  | |- context [N.ltb ?a ?b] => destruct (N.ltb_spec a b)
  end; try lia; simpl).

Lemma js_space_range c :
  is_js_space c = true → 9 ≤ c ≤ 13 ∨ c = 32 ∨ 160 ≤ c.
Proof. unfold is_js_space. split_cmp; try done; lia. Qed.

Lemma filler_range c :
  filler c → 9 ≤ c ≤ 13 ∨ c = 32 ∨ c = 44 ∨ c = 125 ∨ 160 ≤ c.
Proof.
  intros [Hs%js_space_range|[->| ->]]; chars; lia.
Qed.

Lemma run_None text : run None text = None.
Proof. by induction text. Qed.

Lemma run_app s a b : run s (a ++ b) = run (run s a) b.
Proof. apply fold_left_app. Qed.

Lemma run_cons s c text : run (Some s) (c :: text) = run (step_machine c s) text.
Proof. done. Qed.

Lemma step_in_string c m p :
  filler c → in_string m = true →
  match step_machine c (m, p) with
  | Some (m', _) => in_string m' = true
  | None => True
  end.
Proof.
  intros Hc%filler_range Hm. destruct m; try done; simpl.
  - chars. split_cmp; done.
  - unfold escape_char. chars. split_cmp; done.
  - unfold hex_digit, is_digit. chars. split_cmp; done.
Qed.

Lemma run_in_string text m p :
  Forall filler text → in_string m = true →
  match run (Some (m, p)) text with
  | Some (m', _) => in_string m' = true
  | None => True
  end.
Proof.
  intros Ht. revert m p. induction Ht as [|c text Hc _ IH]; intros m p Hm; [done|].
  rewrite run_cons.
  pose proof (step_in_string c m p Hc Hm) as Hs.
  destruct (step_machine c (m, p)) as [[m' p']|]; [by apply IH|].
  by rewrite run_None.
Qed.

Lemma finish_in_string text m p :
  Forall filler text → in_string m = true →
  finish (run (Some (m, p)) text) = None.
Proof.
  intros Ht Hm. pose proof (run_in_string text m p Ht Hm) as Hr.
  destruct (run _ _) as [[m' p']|]; [|done].
  by destruct m'.
Qed.

Lemma step_word c lit seen p :
  filler c → step_machine c (LWord lit seen, p) = None.
Proof.
  intros Hc%filler_range. simpl.
  destruct lit; do 6 (try destruct seen as [|seen]); cbn; chars; cbn;
    try done; split_cmp; done.
Qed.

Lemma num_step_filler st c : filler c → num_step st c = None.
Proof.
  intros Hc%filler_range.
  destruct st; unfold num_step, is_digit, is_exp; chars; split_cmp; done.
Qed.

Lemma step_idle_space c p :
  is_js_space c = true →
  step_idle c p = Some (LIdle, p) ∨ step_idle c p = None.
Proof.
  intros Hc%js_space_range.
  unfold step_idle, is_json_space, is_digit. chars. split_cmp; auto.
Qed.

Lemma step_idle_json_space p : step_idle 32 p = Some (LIdle, p).
Proof. done. Qed.

Lemma step_idle_brace p : step_idle (chr "}") p = idle <$> feed TRBrace p.
Proof. done. Qed.

Lemma step_idle_comma p : step_idle (chr ",") p = idle <$> feed TComma p.
Proof. done. Qed.

Lemma run_idle_spaces ws p :
  spaces ws →
  run (Some (LIdle, p)) ws = Some (LIdle, p) ∨ run (Some (LIdle, p)) ws = None.
Proof.
  induction 1 as [|c ws Hc _ IH]; [by left|].
  rewrite run_cons. change (step_machine c (LIdle, p)) with (step_idle c p).
  destruct (step_idle_space c p Hc) as [-> | ->]; [done|].
  right. apply run_None.
Qed.

Lemma spaces_filler ws : spaces ws → Forall filler ws.
Proof. intros Hws. eapply Forall_impl; [exact Hws|]. by left. Qed.

Lemma tail_filler ws : spaces ws → Forall filler (ws ++ [chr "}"]).
Proof.
  intros Hws. apply Forall_app. split; [by apply spaces_filler|].
  apply Forall_singleton. right. by left.
Qed.

Lemma feed_comma_brace p p' : feed TComma p = Some p' → feed TRBrace p' = None.
Proof.
  destruct p as [stk e]. destruct e; try done. simpl.
  destruct stk as [|[es|m [k|]] stk]; try done; by intros [= <-].
Qed.

Lemma finish_idle o : finish (idle <$> o) = o ≫= result_of.
Proof. by destruct o. Qed.

Lemma idle_tail ws p :
  spaces ws →
  finish (run (Some (LIdle, p)) (ws ++ [chr "}"])) = closing p ∨
  finish (run (Some (LIdle, p)) (ws ++ [chr "}"])) = None.
Proof.
  intros Hws. rewrite run_app.
  destruct (run_idle_spaces ws p Hws) as [-> | ->].
  - left. rewrite run_cons. change (step_machine (chr "}") (LIdle, p))
      with (idle <$> feed TRBrace p). simpl. apply finish_idle.
  - right. by rewrite run_None.
Qed.

Lemma idle_tail_space p : finish (run (Some (LIdle, p)) (js " }")) = closing p.
Proof. apply (finish_idle (feed TRBrace p)). Qed.

Lemma step_filler c m p :
  filler c → in_string m = false →
  step_machine c (m, p) = token_end (m, p) ≫= step_idle c.
Proof.
  intros Hc Hm. destruct m as [| | | |st acc|lit seen]; try done.
  - cbn [step_machine token_end]. rewrite num_step_filler by done.
    by destruct (num_final st).
  - by rewrite step_word.
Qed.

Lemma tail_from s ws :
  spaces ws → in_string (fst s) = false →
  finish (run (Some s) (ws ++ [chr "}"])) = token_end s ≫= closing ∨
  finish (run (Some s) (ws ++ [chr "}"])) = None.
Proof.
  intros Hws Hm. destruct s as [m p]. destruct Hws as [|c ws Hc Hws].
  - left. simpl app. rewrite run_cons, step_filler by (done || right; by left).
    destruct (token_end (m, p)) as [p'|]; [|done].
    apply (finish_idle (feed TRBrace p')).
  - simpl app. rewrite run_cons, step_filler by (done || by left).
    destruct (token_end (m, p)) as [p'|]; [|right; by rewrite run_None].
    cbn [mbind option_bind].
    destruct (step_idle_space c p' Hc) as [-> | ->];
      [apply idle_tail, Hws|right; by rewrite run_None].
Qed.

Lemma tail_space s :
  in_string (fst s) = false →
  finish (run (Some s) (js " }")) = token_end s ≫= closing.
Proof.
  intros Hm. destruct s as [m p].
  change (js " }") with (32 :: [chr "}"]).
  rewrite run_cons, step_filler by (done || by left).
  destruct (token_end (m, p)) as [p'|]; [|done].
  apply idle_tail_space.
Qed.

(** The white space before the closing brace does not matter. *)
Lemma tail_normalised s ws v :
  spaces ws →
  finish (run (Some s) (ws ++ [chr "}"])) = Some v →
  finish (run (Some s) (js " }")) = Some v.
Proof.
  intros Hws. destruct (in_string (fst s)) eqn:Hm.
  { destruct s as [m p]. by rewrite (finish_in_string _ m p (tail_filler ws Hws) Hm). }
  rewrite tail_space by done.
  by destruct (tail_from s ws Hws Hm) as [-> | ->].
Qed.

Lemma parse_normalised p ws v :
  spaces ws →
  JSON_parse (p ++ ws ++ [chr "}"]) = Some v →
  JSON_parse (p ++ js " }") = Some v.
Proof.
  intros Hws. unfold JSON_parse. rewrite !(run_app _ p).
  destruct (run (Some start) p) as [s|]; [by apply tail_normalised|].
  by rewrite !run_None.
Qed.

(** A comma before the closing brace is a syntax error. *)
Lemma tail_comma s ws :
  spaces ws → finish (run (Some s) (chr "," :: ws ++ [chr "}"])) = None.
Proof.
  intros Hws. destruct s as [m p]. destruct (in_string m) eqn:Hm.
  { apply finish_in_string; [|done]. apply Forall_cons. split; [by right; right|].
    by apply tail_filler. }
  rewrite run_cons, step_filler by (done || by right; right).
  destruct (token_end (m, p)) as [p'|]; [|by rewrite run_None].
  cbn [mbind option_bind]. rewrite step_idle_comma.
  destruct (feed TComma p') as [p''|] eqn:Hf; [|by rewrite run_None].
  change (idle <$> Some p'') with (Some (LIdle, p'')).
  destruct (idle_tail ws p'' Hws) as [-> | ->]; [|done].
  unfold closing. by rewrite (feed_comma_brace _ _ Hf).
Qed.

Lemma parse_trailing_comma q ws :
  spaces ws → JSON_parse (q ++ chr "," :: ws ++ [chr "}"]) = None.
Proof.
  intros Hws. unfold JSON_parse. rewrite run_app.
  destruct (run (Some start) q) as [s|]; [by apply tail_comma|].
  by rewrite run_None.
Qed.

(** A text that ends with a closing brace denotes an object. *)
Lemma closing_object p v : closing p = Some v → ∃ m, v = VObj m.
Proof.
  unfold closing. destruct p as [stk e].
  destruct e; try done; simpl;
    (destruct stk as [|[es|m [k|]] stk]; try done;
     destruct stk as [|[es'|m' [k'|]] stk]; try done;
     intros [= <-]; by exists m).
Qed.

Lemma parse_brace_object x v :
  JSON_parse (x ++ [chr "}"]) = Some v → ∃ m, v = VObj m.
Proof.
  unfold JSON_parse. rewrite run_app.
  destruct (run (Some start) x) as [s|]; [|done].
  destruct (in_string (fst s)) eqn:Hm.
  { destruct s as [m p].
    pose proof (finish_in_string _ m p (tail_filler [] ltac:(constructor)) Hm) as Hf.
    simpl app in Hf. by rewrite Hf. }
  destruct (tail_from s [] ltac:(constructor) Hm) as [Ht | Ht];
    simpl app in Ht; rewrite Ht; [|done].
  destruct (token_end s) as [p|]; [|done]. apply closing_object.
Qed.

(** Some texts, parsed. *)
Example parse_values :
  JSON_parse (json "{'a':[1,-2.5e+3,true,null,'xA\n'],'a':{}}")
  = Some (VObj {[ js "a" := VObj ∅ ]})
  ∧ JSON_parse (json "[1,-2.5e+3,true,null,'xA\/']")
    = Some (VArr [VNum (js "1"); VNum (js "-2.5e+3"); VBool true; VNull;
                  VStr (js "xA/")])
  ∧ JSON_parse (json "{'a':1,}") = None
  ∧ JSON_parse (js "01") = None
  ∧ JSON_parse [] = None.
Proof. repeat split; vm_compute; reflexivity. Qed.

(** ** The line decoder *)

Lemma emit_message m j :
  emit (SMessage m) j =
  Normal (foldl (λ j l, call l (SMessage m) j) j (listeners_of message j)).
Proof. unfold emit. simpl. by destruct (listeners_of message j). Qed.

Lemma on_line_fails line j :
  parse_line line = None →
  on_line line j = emit (SError (js "Could not parse JSON: " ++ line)) j.
Proof. intros Hr. unfold on_line. by rewrite Hr. Qed.

Lemma on_line_delivers line r j :
  parse_line line = Some r → on_line line j = emit (SMessage r) j.
Proof. intros Hr. unfold on_line. rewrite Hr. by rewrite emit_message. Qed.

Lemma parse_line_corrected p ws v :
  spaces ws →
  JSON_parse (p ++ ws ++ [chr "}"]) = Some v →
  replace_trailing_comma (p ++ ws ++ [chr "}"]) = p ++ ws ++ [chr "}"].
Proof.
  intros Hws Hv.
  destruct (replace_trailing_comma_cases (p ++ ws ++ [chr "}"]))
    as [Heq|(q & ws' & Hws' & Heq)]; [done|].
  rewrite Heq in Hv. by rewrite parse_trailing_comma in Hv.
Qed.

Lemma default_empty_lookup k k' e :
  entry_props (default_empty k e) !! k' =
  if decide (k = k') then Some (default (VStr []) (entry_props e !! k))
  else entry_props e !! k'.
Proof.
  unfold default_empty. destruct (entry_props e !! k) eqn:Hk; simpl.
  - case_decide; by subst.
  - by rewrite lookup_insert.
Qed.

(** C7: a raw line that ends with a comma, white space and the closing
    brace, and whose text without that comma is valid JSON, is decoded:
    a record is delivered, and it is the record that the line without the
    comma is decoded to; the ['line'] handler does the same on both. *)
Theorem trailing_comma_repaired (p ws : jsstring) (v : value) :
  spaces ws →
  JSON_parse (p ++ ws ++ [chr "}"]) = Some v →
  (∃ r, parse_line (p ++ chr "," :: ws ++ [chr "}"]) = Some r) ∧
  parse_line (p ++ chr "," :: ws ++ [chr "}"]) = parse_line (p ++ ws ++ [chr "}"]) ∧
  ∀ j, on_line (p ++ chr "," :: ws ++ [chr "}"]) j = on_line (p ++ ws ++ [chr "}"]) j.
Proof.
  intros Hws Hv.
  assert (Hraw : parse_line (p ++ chr "," :: ws ++ [chr "}"])
                 = parse_line (p ++ ws ++ [chr "}"])).
  { unfold parse_line.
    rewrite replace_trailing_comma_match, (parse_line_corrected p ws v) by done.
    by rewrite Hv, (parse_normalised p ws v). }
  assert (Hsome : ∃ r, parse_line (p ++ ws ++ [chr "}"]) = Some r).
  { unfold parse_line. rewrite (parse_line_corrected p ws v), Hv by done.
    rewrite app_assoc in Hv. apply parse_brace_object in Hv as [m ->].
    by eexists. }
  destruct Hsome as [r Hr]. split; [exists r; congruence|]. split; [done|].
  intros j. rewrite !(on_line_delivers _ r); congruence.
Qed.

Lemma trailing_comma_repaired_witness :
  (∃ r, parse_line (json "{'MESSAGE':'up'" ++ chr "," :: js "  " ++ [chr "}"]) = Some r) ∧
  parse_line (json "{'MESSAGE':'up'" ++ chr "," :: js "  " ++ [chr "}"])
  = parse_line (json "{'MESSAGE':'up'" ++ js "  " ++ [chr "}"]) ∧
  ∀ j, on_line (json "{'MESSAGE':'up'" ++ chr "," :: js "  " ++ [chr "}"]) j
       = on_line (json "{'MESSAGE':'up'" ++ js "  " ++ [chr "}"]) j.
Proof.
  apply (trailing_comma_repaired (json "{'MESSAGE':'up'") (js "  ")
           (VObj {[ js "MESSAGE" := VStr (js "up") ]})).
  - repeat constructor.
  - vm_compute. reflexivity.
Defined.

(** C5: when the repaired line parses to an object (or an array), a
    record is delivered; its MESSAGE and its _HOSTNAME are the parsed
    values where the line has them and the empty string where it does
    not; every other property is as parsed. *)
Theorem decoded_defaults (line : jsstring) (v : value) (parsed : entry) :
  JSON_parse (replace_trailing_comma line) = Some v →
  as_object v = Some parsed →
  ∃ r, parse_line line = Some r ∧
       (∀ j, on_line line j = emit (SMessage r) j) ∧
       entry_elems r = entry_elems parsed ∧
       entry_props r !! js "MESSAGE"
         = Some (default (VStr []) (entry_props parsed !! js "MESSAGE")) ∧
       entry_props r !! js "_HOSTNAME"
         = Some (default (VStr []) (entry_props parsed !! js "_HOSTNAME")) ∧
       ∀ k, k ≠ js "MESSAGE" → k ≠ js "_HOSTNAME" →
            entry_props r !! k = entry_props parsed !! k.
Proof.
  intros Hv Hp. eexists. split; [|split; [|split; [|split; [|split]]]].
  - unfold parse_line. rewrite Hv. simpl. rewrite Hp. reflexivity.
  - intros j. apply on_line_delivers. unfold parse_line. rewrite Hv. simpl.
    by rewrite Hp.
  - unfold default_empty. by repeat case_match.
  - rewrite !default_empty_lookup. by repeat case_decide.
  - rewrite !default_empty_lookup. by repeat case_decide.
  - intros k H1 H2. rewrite !default_empty_lookup. by repeat case_decide.
Qed.

Lemma decoded_defaults_witness :
  ∃ r, parse_line (json "{'PRIORITY':'6',}") = Some r ∧
       (∀ j, on_line (json "{'PRIORITY':'6',}") j = emit (SMessage r) j) ∧
       entry_elems r = entry_elems (Entry None {[ js "PRIORITY" := VStr (js "6") ]}) ∧
       entry_props r !! js "MESSAGE"
         = Some (default (VStr [])
                   (entry_props (Entry None {[ js "PRIORITY" := VStr (js "6") ]})
                      !! js "MESSAGE")) ∧
       entry_props r !! js "_HOSTNAME"
         = Some (default (VStr [])
                   (entry_props (Entry None {[ js "PRIORITY" := VStr (js "6") ]})
                      !! js "_HOSTNAME")) ∧
       ∀ k, k ≠ js "MESSAGE" → k ≠ js "_HOSTNAME" →
            entry_props r !! k
            = entry_props (Entry None {[ js "PRIORITY" := VStr (js "6") ]}) !! k.
Proof.
  apply (decoded_defaults (json "{'PRIORITY':'6',}")
           (VObj {[ js "PRIORITY" := VStr (js "6") ]})).
  - vm_compute. reflexivity.
  - reflexivity.
Defined.

(** *** The keys of a record *)

(** C4, amended: when the repaired line parses to an object (or an
    array), a record is delivered; its MESSAGE is the parsed value, or the
    empty string where the line has none; the cursor, the two timestamps
    and the boot identifier are delivered as parsed, present where the
    line has them and absent where it does not. *)
Theorem message_defaulted_rest_as_parsed (line : jsstring) (v : value) (parsed : entry) :
  JSON_parse (replace_trailing_comma line) = Some v →
  as_object v = Some parsed →
  ∃ r, parse_line line = Some r
       ∧ entry_props r !! js "MESSAGE"
         = Some (default (VStr []) (entry_props parsed !! js "MESSAGE"))
       ∧ ∀ k, k ∈ guaranteed_from_journal →
              entry_props r !! k = entry_props parsed !! k.
Proof.
  intros Hv Hp. eexists. split; [|split].
  - unfold parse_line. rewrite Hv. simpl. rewrite Hp. reflexivity.
  - rewrite !default_empty_lookup. by repeat case_decide.
  - intros k Hk. rewrite !default_empty_lookup.
    unfold guaranteed_from_journal in Hk.
    repeat (apply elem_of_cons in Hk as [->|Hk]); [..|by apply elem_of_nil in Hk];
      by repeat case_decide.
Qed.

Lemma message_defaulted_rest_as_parsed_witness :
  ∃ r, parse_line (json "{'__CURSOR':'s=1','_BOOT_ID':'b'}") = Some r
       ∧ entry_props r !! js "MESSAGE"
         = Some (default (VStr [])
             (entry_props (Entry None {[ js "__CURSOR" := VStr (js "s=1");
                                         js "_BOOT_ID" := VStr (js "b") ]})
                !! js "MESSAGE"))
       ∧ ∀ k, k ∈ guaranteed_from_journal →
              entry_props r !! k
              = entry_props (Entry None {[ js "__CURSOR" := VStr (js "s=1");
                                           js "_BOOT_ID" := VStr (js "b") ]}) !! k.
Proof.
  apply (message_defaulted_rest_as_parsed (json "{'__CURSOR':'s=1','_BOOT_ID':'b'}")
           (VObj {[ js "__CURSOR" := VStr (js "s=1"); js "_BOOT_ID" := VStr (js "b") ]})).
  - vm_compute. reflexivity.
  - reflexivity.
Defined.

(** A line of the journal with a message only is decoded, and the record
    has none of the five other keys. *)
Lemma decoded_record_lacks_guaranteed_keys :
  ∃ r, parse_line (json "{'MESSAGE':'started'}") = Some r
       ∧ entry_props r !! js "SYSLOG_IDENTIFIER" = None
       ∧ entry_props r !! js "__CURSOR" = None
       ∧ entry_props r !! js "__REALTIME_TIMESTAMP" = None
       ∧ entry_props r !! js "__MONOTONIC_TIMESTAMP" = None
       ∧ entry_props r !! js "_BOOT_ID" = None.
Proof. eexists. split; [vm_compute; reflexivity|]. repeat split; vm_compute; reflexivity. Qed.

(** ** The argument builder *)

Section BuilderFacts.
Context `{Host}.


Lemma appends_bind f g :
  appends f → appends g → appends (λ a, f a ≫= g).
Proof.
  intros Hf Hg a. rewrite (Hf a). destruct (f []) as [b|e]; simpl; [|done].
  rewrite (Hg (a ++ b)), (Hg b). destruct (g []) as [c|e]; simpl; [|done].
  by rewrite app_assoc.
Qed.

Lemma appends_since o : appends (push_since o).
Proof.
  intros a. unfold push_since. destruct (truthy_date _); simpl; [|by rewrite app_nil_r].
  by destruct (dateString_of _).
Qed.

Lemma appends_lines o : appends (push_lines o).
Proof.
  intros a. unfold push_lines.
  destruct (truthy_date (opt_until o)), (truthy_date (opt_since o)),
    (opt_lines o) as [n|]; simpl; rewrite ?app_nil_r; try done;
    by destruct (validatePositiveInteger n).
Qed.

Lemma appends_priority o : appends (push_priority o).
Proof.
  intros a. unfold push_priority.
  destruct (opt_priority o) as [[p|f t]|]; simpl; rewrite ?app_nil_r; try done.
  - by destruct (validatePriority p).
  - destruct (validatePriority f); simpl; [|done]. by destruct (validatePriority t).
Qed.

Lemma appends_identifier o : appends (push_identifier o).
Proof.
  intros a. unfold push_identifier.
  destruct (opt_identifier o) as [i|]; simpl; rewrite ?app_nil_r; try done.
  by destruct (validateSyslogIdentifier i).
Qed.

Lemma appends_unit o : appends (push_unit o).
Proof.
  intros a. unfold push_unit.
  destruct (truthy_string _) as [u|]; simpl; rewrite ?app_nil_r; try done.
  by destruct (validateUnit u).
Qed.

Lemma appends_filters f : appends (push_filters f).
Proof.
  induction f as [|[k v] f IH]; intros a; simpl; [by rewrite app_nil_r|].
  destruct (validateFieldName k) as [k'|]; simpl; [|done].
  rewrite (IH (a ++ _)), (IH [_]). destruct (push_filters f []); simpl; [|done].
  by rewrite <- app_assoc.
Qed.

Lemma appends_filter o : appends (push_filter o).
Proof.
  intros a. unfold push_filter. destruct (opt_filter o); [apply appends_filters|].
  simpl. by rewrite app_nil_r.
Qed.

Lemma appends_fields f : appends (push_fields f).
Proof.
  induction f as [|k f IH]; intros a; simpl; [by rewrite app_nil_r|].
  destruct (validateFieldName k) as [k'|]; simpl; [|done].
  rewrite (IH (a ++ _)), (IH [_; _]). destruct (push_fields f []); simpl; [|done].
  by rewrite <- app_assoc.
Qed.

Lemma push_missing_app name fields a b :
  push_missing name fields (a ++ b) = a ++ push_missing name fields b.
Proof. unfold push_missing. case_bool_decide; [done|]. by rewrite app_assoc. Qed.

Lemma appends_outputFields f : appends (push_outputFields f).
Proof.
  intros a. unfold push_outputFields. destruct f as [f|]; simpl; [|by rewrite app_nil_r].
  rewrite (appends_fields f a). destruct (push_fields f []) as [b|]; simpl; [|done].
  by rewrite !push_missing_app.
Qed.

(** The argument list in three parts. *)
Lemma build_args_parts options outputFields :
  build_args options outputFields =
  before ← args_before_lines options;
  count ← push_lines options [];
  after ← args_after_lines options outputFields;
  Ok (before ++ count ++ after).
Proof.
  unfold build_args, args_before_lines, args_after_lines.
  destruct (push_until options _) as [u|]; simpl; [|done].
  rewrite (appends_lines options). destruct (push_lines options []) as [l|]; simpl; [|done].
  rewrite (appends_since options). destruct (push_since options []) as [s|]; simpl; [|done].
  destruct (check_since_until options); simpl; [|done].
  rewrite (appends_priority options), (appends_priority options s).
  destruct (push_priority options []) as [p|]; simpl; [|done].
  rewrite (appends_identifier options), (appends_identifier options (s ++ p)).
  destruct (push_identifier options []) as [i|]; simpl; [|done].
  rewrite (appends_unit options), (appends_unit options (_ ++ i)).
  destruct (push_unit options []) as [un|]; simpl; [|done].
  rewrite (appends_filter options), (appends_filter options (_ ++ un)).
  destruct (push_filter options []) as [fi|]; simpl; [|done].
  rewrite (appends_outputFields outputFields),
    (appends_outputFields outputFields (_ ++ fi)).
  destruct (push_outputFields outputFields []) as [fl|]; simpl; [|done].
  by rewrite <- !app_assoc.
Qed.

Lemma build_args_priority options outputFields :
  build_args options outputFields =
  before ← args_before_priority options;
  range ← push_priority options [];
  after ← args_after_priority options outputFields;
  Ok (before ++ range ++ after).
Proof.
  unfold build_args, args_before_priority, args_after_priority.
  destruct (push_until options _) as [u|]; simpl; [|done].
  destruct (push_lines options _) as [l|]; simpl; [|done].
  destruct (push_since options _) as [s|]; simpl; [|done].
  destruct (check_since_until options); simpl; [|done].
  rewrite (appends_priority options).
  destruct (push_priority options []) as [p|]; simpl; [|done].
  rewrite (appends_identifier options).
  destruct (push_identifier options []) as [i|]; simpl; [|done].
  rewrite (appends_unit options), (appends_unit options i).
  destruct (push_unit options []) as [un|]; simpl; [|done].
  rewrite (appends_filter options), (appends_filter options (_ ++ un)).
  destruct (push_filter options []) as [fi|]; simpl; [|done].
  rewrite (appends_outputFields outputFields),
    (appends_outputFields outputFields (_ ++ fi)).
  destruct (push_outputFields outputFields []) as [fl|]; simpl; [|done].
  by rewrite <- !app_assoc.
Qed.

(** C6: when since and until are both set and the time of since is
    later than the time of until, the constructor throws and no process
    is spawned. *)
Theorem since_after_until_rejected (options : JournalCtlOptions)
  (outputFields : option (list jsstring)) (processes : list (list jsstring))
  (s u : date_value) (ts tu : Z) :
  truthy_date (opt_since options) = Some s →
  truthy_date (opt_until options) = Some u →
  getTime s = Some ts → getTime u = Some tu → (tu < ts)%Z →
  ∃ e, new_JournalCtl options outputFields processes = (Throw e, processes).
Proof.
  intros Hs Hu Hts Htu Hlt.
  assert (Hb : ∃ e, build_args options outputFields = Throw e).
  { unfold build_args.
    destruct (push_until options _) as [a1|]; simpl; [|by eexists].
    destruct (push_lines options _) as [a2|]; simpl; [|by eexists].
    destruct (push_since options _) as [a3|]; simpl; [|by eexists].
    unfold check_since_until. rewrite Hs, Hu, Hts, Htu. simpl.
    destruct (Z.gtb_spec ts tu); [by eexists|lia]. }
  destruct Hb as [e He]. exists e. unfold new_JournalCtl. by rewrite He.
Qed.

(** C8: in the argument list of a successful construction, the tokens of
    the other options stand before and after the line count, which is
    "-n" and the limit when a limit is given, then a non-negative integer;
    "-n" "10" when no limit is given and neither since nor until is set;
    and nothing when no limit is given and one of the two is set.  An
    option is set when it is truthy, which is what the constructor
    tests. *)
Theorem line_count_tokens (options : JournalCtlOptions)
  (outputFields : option (list jsstring)) (args : list jsstring) :
  build_args options outputFields = Ok args →
  ∃ before after,
    args_before_lines options = Ok before ∧
    args_after_lines options outputFields = Ok after ∧
    match opt_lines options with
    | Some n =>
        ∃ z, n = Int z ∧ (0 ≤ z)%Z ∧
             args = before ++ [js "-n"; Number_toString z] ++ after
    | None =>
        match truthy_date (opt_since options), truthy_date (opt_until options) with
        | None, None => args = before ++ [js "-n"; js "10"] ++ after
        | _, _ => args = before ++ after
        end
    end.
Proof.
  rewrite build_args_parts.
  destruct (args_before_lines options) as [b|]; simpl; [|done].
  destruct (push_lines options []) as [c|] eqn:Hc; simpl; [|done].
  destruct (args_after_lines options outputFields) as [a|]; simpl; [|done].
  intros [= <-]. exists b, a. split; [done|]. split; [done|].
  unfold push_lines in Hc.
  destruct (opt_lines options) as [[z|]|].
  - exists z. split; [done|].
    assert (Hz : (0 ≤ z)%Z ∧ c = [js "-n"; Number_toString z]).
    { destruct (truthy_date (opt_until options)), (truthy_date (opt_since options));
        simpl in Hc; destruct (Z.ltb_spec z 0); simpl in Hc; by simplify_eq. }
    by destruct Hz as [? ->].
  - by destruct (truthy_date (opt_until options)), (truthy_date (opt_since options)).
  - destruct (truthy_date (opt_until options)), (truthy_date (opt_since options));
      simplify_eq; simpl; by rewrite ?app_nil_l.
Qed.

(** C9: with the empty string as unit, as since or as until the
    constructor does what it does without that option: nothing is
    validated (the unit validator rejects the empty string) and no token
    is added; with no other option it succeeds with the default
    arguments. *)
Theorem empty_string_is_absent (options : JournalCtlOptions)
  (outputFields : option (list jsstring)) (processes : list (list jsstring)) :
  new_JournalCtl (set_opt_unit (Some []) options) outputFields processes
  = new_JournalCtl (set_opt_unit None options) outputFields processes
  ∧ new_JournalCtl (set_opt_since (Some (DateString [])) options) outputFields processes
    = new_JournalCtl (set_opt_since None options) outputFields processes
  ∧ new_JournalCtl (set_opt_until (Some (DateString [])) options) outputFields processes
    = new_JournalCtl (set_opt_until None options) outputFields processes
  ∧ validateUnit [] = Throw (NotValidUnit [])
  ∧ build_args (set_opt_unit (Some []) no_options) None
    = Ok [js "-o"; js "json"; js "-f"; js "-n"; js "10"]
  ∧ build_args (set_opt_since (Some (DateString [])) no_options) None
    = Ok [js "-o"; js "json"; js "-f"; js "-n"; js "10"]
  ∧ build_args (set_opt_until (Some (DateString [])) no_options) None
    = Ok [js "-o"; js "json"; js "-f"; js "-n"; js "10"].
Proof. repeat split; reflexivity. Qed.

Lemma Number_toString_digit (z : Z) :
  (0 ≤ z ≤ 7)%Z → Number_toString z = [chr "0" + Z.to_N z].
Proof.
  intros Hz.
  assert (Hcases : z = 0%Z ∨ z = 1%Z ∨ z = 2%Z ∨ z = 3%Z ∨ z = 4%Z ∨ z = 5%Z
                   ∨ z = 6%Z ∨ z = 7%Z) by lia.
  destruct Hcases as [->|[->|[->|[->|[->|[->|[->| ->]]]]]]]; reflexivity.
Qed.

Lemma validatePriority_in_range (z : Z) :
  (0 ≤ z ≤ 7)%Z → validatePriority (Int z) = Ok z.
Proof.
  intros Hz. unfold validatePriority. simpl.
  destruct (Z.ltb_spec z 0); [lia|]. simpl.
  destruct (Z.ltb_spec z 0); [lia|]. by destruct (Z.gtb_spec z 7); [lia|].
Qed.

(** C10: a priority range with both bounds in 0..7 passes, whatever
    their order: the construction succeeds where it succeeds without the
    priority, and "-p" and "from..to" are added to its arguments. *)
Theorem priority_range_not_ordered (options : JournalCtlOptions)
  (outputFields : option (list jsstring)) (args : list jsstring) (from to : Z) :
  (0 ≤ from ≤ 7)%Z → (0 ≤ to ≤ 7)%Z →
  opt_priority options = Some (Range (Int from) (Int to)) →
  build_args (set_opt_priority None options) outputFields = Ok args →
  ∃ before after,
    args = before ++ after ∧
    build_args options outputFields
    = Ok (before ++ [js "-p"; [chr "0" + Z.to_N from] ++ js ".." ++ [chr "0" + Z.to_N to]]
            ++ after).
Proof.
  intros Hf Ht Hp. rewrite !build_args_priority.
  change (args_before_priority (set_opt_priority None options))
    with (args_before_priority options).
  change (args_after_priority (set_opt_priority None options) outputFields)
    with (args_after_priority options outputFields).
  change (push_priority (set_opt_priority None options) []) with (Ok (@nil jsstring)).
  assert (Hr : push_priority options []
               = Ok [js "-p"; [chr "0" + Z.to_N from] ++ js ".." ++ [chr "0" + Z.to_N to]]).
  { unfold push_priority. rewrite Hp, !validatePriority_in_range by done.
    cbn [mbind result_bind]. by rewrite !Number_toString_digit. }
  rewrite Hr. clear Hr.
  destruct (args_before_priority options) as [b|]; [|done].
  destruct (args_after_priority options outputFields) as [a|]; [|done].
  intros [= <-]. by exists b, a.
Qed.
End BuilderFacts.

(** *** The tests of the repository (JournalCtl.spec.ts)

    On the sample host the constructor throws on every input on which the
    tests expect it to.  Of the numbers of the tests, 123.5, -0.01 and NaN
    are [NonInteger]. *)

Example test_invalid_date :
  forallb (λ d, throws (set_opt_since (Some d) no_options) None
                && throws (set_opt_until (Some d) no_options) None)
    [DateString (js "2020-99-99"); DateString (js "2020-01-01 99:99"); DateObject None]
  = true
  ∧ throws (set_opt_until (Some (DateString (js "2019-01-01")))
             (set_opt_since (Some (DateString (js "2020-01-01"))) no_options)) None
    = true.
Proof. split; vm_compute; reflexivity. Qed.

Example test_invalid_unit :
  forallb (λ u, throws (set_opt_unit (Some u) no_options) None)
    [js "a|.service"; js "pp**"; js "123;;"] = true.
Proof. vm_compute. reflexivity. Qed.

Example test_invalid_lines :
  forallb (λ n, throws (set_opt_lines (Some n) no_options) None)
    [NonInteger; Int (-10)] = true.
Proof. vm_compute. reflexivity. Qed.

Example test_invalid_priority :
  forallb (λ n, throws (set_opt_priority (Some (Single n)) no_options) None)
    [NonInteger; Int (-10)] = true.
Proof. vm_compute. reflexivity. Qed.

Example test_invalid_identifier :
  forallb (λ i, throws (set_opt_identifier (Some i) no_options) None)
    [js "sss sss"; []; js "__ "] = true.
Proof. vm_compute. reflexivity. Qed.

Example test_invalid_field :
  forallb (λ f, throws no_options (Some [f]))
    [js "abc1234"; js "aSBC__"; js "**"; []] = true.
Proof. vm_compute. reflexivity. Qed.

Example readme_date_filter :
  @build_args sample_host
    (set_opt_until (Some (DateString (js "2022-01-03")))
       (set_opt_since (Some (DateString (js "2022-01-01 12:00"))) no_options)) None
  = Ok [js "-o"; js "json"; js "-U"; js "2022-01-03"; js "-S"; js "2022-01-01 12:00"].
Proof. vm_compute. reflexivity. Qed.

Lemma since_after_until_rejected_witness :
  ∃ e, @new_JournalCtl sample_host
         (set_opt_until (Some (DateString (js "2019-01-01")))
            (set_opt_since (Some (DateString (js "2020-01-01"))) no_options))
         None []
       = (Throw e, []).
Proof.
  apply (@since_after_until_rejected sample_host
           (set_opt_until (Some (DateString (js "2019-01-01")))
              (set_opt_since (Some (DateString (js "2020-01-01"))) no_options))
           None [] (DateString (js "2020-01-01")) (DateString (js "2019-01-01"))
           1577836800000 1546300800000).
  - reflexivity.
  - reflexivity.
  - vm_compute. reflexivity.
  - vm_compute. reflexivity.
  - lia.
Defined.

Lemma line_count_tokens_witness :
  ∃ before after,
    @args_before_lines sample_host (set_opt_lines (Some (Int 25)) no_options) = Ok before ∧
    @args_after_lines sample_host (set_opt_lines (Some (Int 25)) no_options) None = Ok after ∧
    ∃ z, Int 25 = Int z ∧ (0 ≤ z)%Z ∧
         [js "-o"; js "json"; js "-f"; js "-n"; js "25"]
         = before ++ [js "-n"; @Number_toString sample_host z] ++ after.
Proof.
  apply (@line_count_tokens sample_host (set_opt_lines (Some (Int 25)) no_options) None
           [js "-o"; js "json"; js "-f"; js "-n"; js "25"]).
  reflexivity.
Defined.

Lemma priority_range_not_ordered_witness :
  ∃ before after,
    [js "-o"; js "json"; js "-f"; js "-n"; js "10"] = before ++ after ∧
    @build_args sample_host
      (set_opt_priority (Some (Range (Int 7) (Int 0))) no_options) None
    = Ok (before ++ [js "-p"; [chr "0" + Z.to_N 7] ++ js ".." ++ [chr "0" + Z.to_N 0]]
            ++ after).
Proof.
  apply (@priority_range_not_ordered sample_host
           (set_opt_priority (Some (Range (Int 7) (Int 0))) no_options) None
           [js "-o"; js "json"; js "-f"; js "-n"; js "10"] 7 0).
  - lia.
  - lia.
  - reflexivity.
  - reflexivity.
Defined.

Local Close Scope N_scope.

(** ** The generator *)

Lemma settle_last_length v ps : length (settle_last v ps) = length ps.
Proof. unfold settle_last. repeat case_match; by rewrite ?length_insert. Qed.

Lemma settle_last_app v a b :
  b ≠ [] → settle_last v (a ++ b) = a ++ settle_last v b.
Proof.
  intros Hb. unfold settle_last. rewrite length_app.
  assert (0 < length b) by (destruct b; simpl; [done|lia]).
  replace (length a + length b - 1) with (length a + (length b - 1)) by lia.
  rewrite lookup_app_r by lia.
  replace (length a + (length b - 1) - length a) with (length b - 1) by lia.
  destruct (b !! (length b - 1)) as [[|?]|]; try done.
  by rewrite insert_app_r.
Qed.

Lemma settle_last_pending v : settle_last v [Pending] = [Resolved v].
Proof. done. Qed.

Lemma cells_snoc l s : cells (l ++ [s]) = cell_step (cells l) s.
Proof. unfold cells. by rewrite foldl_snoc. Qed.

Lemma records_before_end_snoc l s :
  records_before_end (l ++ [s]) =
  if forallb is_record l
  then records_before_end l ++ (if s is SMessage m then [m] else [])
  else records_before_end l.
Proof.
  induction l as [|[m| |] l IH]; simpl; try done.
  rewrite IH. by destruct (forallb is_record l).
Qed.

(** The promises are the records before the first end signal, then a
    promise that holds no record. *)
Lemma cells_shape l :
  if forallb is_record l
  then cells l = (fulfilled <$> records_before_end l) ++ [Pending]
  else ∃ rest, cells l = (fulfilled <$> records_before_end l) ++ Resolved None :: rest.
Proof.
  induction l as [|s l IH] using rev_ind; [done|].
  rewrite forallb_app, records_before_end_snoc, cells_snoc. simpl.
  destruct (forallb is_record l); simpl.
  - rewrite IH. destruct s as [m| |]; simpl.
    + rewrite settle_last_app, settle_last_pending, fmap_app by done.
      done.
    + rewrite settle_last_app, settle_last_pending, app_nil_r by done. by exists [].
    + rewrite settle_last_app, settle_last_pending, app_nil_r by done. by exists [].
  - destruct IH as [rest ->].
    assert (Hs : ∀ v, ∃ rest', settle_last v
        ((fulfilled <$> records_before_end l) ++ Resolved None :: rest)
        = (fulfilled <$> records_before_end l) ++ Resolved None :: rest').
    { intros v. rewrite settle_last_app by done.
      destruct rest as [|c rest]; [by exists []|].
      exists (settle_last v (c :: rest)).
      f_equal. exact (settle_last_app v [Resolved None] (c :: rest) ltac:(done)). }
    destruct s as [m| |]; simpl.
    + destruct (Hs (Some m)) as [rest' ->]. exists (rest' ++ [Pending]).
      by rewrite <- app_assoc.
    + apply Hs.
    + apply Hs.
Qed.

Lemma cells_nonempty l : cells l ≠ [].
Proof.
  pose proof (cells_shape l) as Hs. destruct (forallb is_record l).
  - rewrite Hs. by destruct (fulfilled <$> _).
  - destruct Hs as [rest ->]. by destruct (fulfilled <$> _).
Qed.

Lemma last_settle_last ps m :
  last ps ≠ Some (fulfilled m) → last (settle_last None ps) ≠ Some (fulfilled m).
Proof.
  intros Hl. rewrite last_lookup, settle_last_length. rewrite last_lookup in Hl.
  replace (Init.Nat.pred (length ps)) with (length ps - 1) in * by lia.
  unfold settle_last.
  destruct (ps !! (length ps - 1)) as [[|v]|] eqn:Hp; rewrite ?Hp; try done.
  rewrite list_lookup_insert_eq; [done|]. by apply lookup_lt_Some in Hp.
Qed.

(** The newest promise never holds a record. *)
Lemma cells_last l m : last (cells l) ≠ Some (fulfilled m).
Proof.
  induction l as [|s l IH] using rev_ind; [done|].
  rewrite cells_snoc. destruct s as [m'| |]; simpl.
  - by rewrite last_snoc.
  - by apply last_settle_last.
  - by apply last_settle_last.
Qed.

Lemma signals_of_snoc id j' j s :
  received j' = received j ++ [(id, s)] →
  signals_of id j' = signals_of id j ++ [s].
Proof.
  intros Hr. unfold signals_of. rewrite Hr, omap_app. simpl.
  by rewrite decide_True.
Qed.

Lemma settle_promises j v :
  resolve j = length (promises j) - 1 →
  promises (settle (resolve j) v j) = settle_last v (promises j).
Proof.
  intros Hr. unfold settle, settle_last. rewrite Hr.
  by destruct (promises j !! (length (promises j) - 1)) as [[|?]|].
Qed.

Lemma emit_attached_listeners s j :
  listeners j = attached_listeners →
  emit s j = Normal (call (generator_listener s) s (call (Subscriber 0) s j)).
Proof.
  intros Hl. destruct s; unfold emit, listeners_of; by rewrite Hl.
Qed.

(** [settle] changes the promises only. *)
Lemma settle_fields p v j :
  listeners (settle p v j) = listeners j
  ∧ resolve (settle p v j) = resolve j
  ∧ messagePromises (settle p v j) = messagePromises j
  ∧ received (settle p v j) = received j
  ∧ stdErrorText (settle p v j) = stdErrorText j
  ∧ length (promises (settle p v j)) = length (promises j).
Proof. unfold settle. repeat case_match; simpl; by rewrite ?length_insert. Qed.

Lemma call_generator_message m j :
  resolve j = length (promises j) - 1 → promises j ≠ [] →
  let j' := call GeneratorOnMessage (SMessage m) j in
  promises j' = cell_step (promises j) (SMessage m)
  ∧ resolve j' = length (promises j)
  ∧ messagePromises j' = messagePromises j ++ [length (promises j)]
  ∧ listeners j' = listeners j
  ∧ received j' = received j
  ∧ stdErrorText j' = stdErrorText j.
Proof.
  intros Hr Hne.
  assert (Hn : 0 < length (promises j)) by (destruct (promises j); simpl; [done|lia]).
  cbn [call]. split.
  - unfold cell_step, settle, settle_last. simpl. rewrite Hr, lookup_app_l by lia.
    destruct (promises j !! (length (promises j) - 1)) as [[|?]|]; simpl; try done.
    by rewrite insert_app_l by lia.
  - unfold settle. simpl. by repeat case_match.
Qed.

Lemma call_subscriber id s j :
  let j' := call (Subscriber id) s j in
  promises j' = promises j ∧ resolve j' = resolve j
  ∧ messagePromises j' = messagePromises j ∧ listeners j' = listeners j
  ∧ received j' = received j ++ [(id, s)] ∧ stdErrorText j' = stdErrorText j.
Proof. done. Qed.

Lemma emit_attached s j h :
  attached j h →
  ∃ j', emit s j = Normal j' ∧ attached j' h
        ∧ signals_of 0 j' = signals_of 0 j ++ [s]
        ∧ stdErrorText j' = stdErrorText j.
Proof.
  intros [Hl Hp Hr Hq Hb].
  assert (Hne : promises j ≠ []) by (rewrite Hp; apply cells_nonempty).
  assert (Hn : 0 < length (promises j)) by (destruct (promises j); simpl; [done|lia]).
  eexists. split; [by apply emit_attached_listeners|].
  destruct (call_subscriber 0 s j) as (Hp1 & Hr1 & Hq1 & Hl1 & Hc1 & He1).
  set (j1 := call (Subscriber 0) s j) in *.
  assert (Hr1' : resolve j1 = length (promises j1) - 1) by congruence.
  assert (Hcells : ∀ j', received j' = received j1 →
            promises j' = cell_step (promises j1) s →
            promises j' = cells (signals_of 0 j')
            ∧ signals_of 0 j' = signals_of 0 j ++ [s]).
  { intros j' Hrec Hps.
    assert (Hs : signals_of 0 j' = signals_of 0 j ++ [s])
      by (apply signals_of_snoc; congruence).
    split; [|done]. by rewrite Hs, cells_snoc, <- Hp, <- Hp1. }
  destruct s as [m|e|]; cbn [generator_listener].
  - destruct (call_generator_message m j1) as (Hp2 & Hr2 & Hq2 & Hl2 & Hc2 & He2);
      [done|congruence|].
    set (j2 := call GeneratorOnMessage (SMessage m) j1) in *.
    destruct (Hcells j2 Hc2 Hp2) as [Hp2' Hs2].
    assert (Hlen : length (promises j2) = S (length (promises j))).
    { rewrite Hp2, Hp1. simpl. rewrite length_app, settle_last_length. simpl. lia. }
    split; [split|split]; try congruence.
    + rewrite Hr2, Hlen, Hp1. lia.
    + rewrite Hq2, Hq1, Hq, Hlen, Hp1.
      replace (S (length (promises j)) - h) with (S (length (promises j) - h)) by lia.
      rewrite seq_S. do 3 f_equal. lia.
    + lia.
  - cbn [call].
    destruct (settle_fields (resolve j1) None j1) as (Hl2 & Hr2 & Hq2 & Hc2 & He2 & Hn2).
    pose proof (settle_promises j1 None Hr1') as Hp2.
    set (j2 := settle (resolve j1) None j1) in *.
    destruct (Hcells j2 Hc2 Hp2) as [Hp2' Hs2].
    split; [split|split]; try congruence.
  - cbn [call].
    destruct (settle_fields (resolve j1) None j1) as (Hl2 & Hr2 & Hq2 & Hc2 & He2 & Hn2).
    pose proof (settle_promises j1 None Hr1') as Hp2.
    set (j2 := settle (resolve j1) None j1) in *.
    destruct (Hcells j2 Hc2 Hp2) as [Hp2' Hs2].
    split; [split|split]; try congruence.
Qed.

(** *** The handlers keep the generator attached *)

Section HandlerFacts.
Context `{Host}.

Lemma handle_attached a j h :
  attached j h →
  ∃ j' sigs, handle a j = Normal j' ∧ attached j' h
             ∧ signals_of 0 j' = signals_of 0 j ++ sigs.
Proof.
  intros Hj. destruct a as [line|chunk|code|err|]; cbn [handle].
  - unfold on_line. destruct (parse_line line) as [m|].
    + destruct (emit_attached (SMessage m) j h Hj) as (j' & -> & Hj' & Hs & _).
      by exists j', [SMessage m].
    + cbn [try_catch].
      destruct (emit_attached (SError (js "Could not parse JSON: " ++ line)) j h Hj)
        as (j' & -> & Hj' & Hs & _).
      by eexists j', [_].
  - eexists _, []. split; [done|]. split; [by destruct Hj|by rewrite app_nil_r].
  - unfold on_process_exit.
    assert (Hexit : ∃ j' sigs, emit SExit j = Normal j' ∧ attached j' h
               ∧ signals_of 0 j' = signals_of 0 j ++ sigs).
    { destruct (emit_attached SExit j h Hj) as (j' & -> & Hj' & Hs & _).
      by exists j', [SExit]. }
    destruct code as [c|]; [|done]. case_bool_decide; [|done].
    destruct (emit_attached (SError (nullish (stdErrorText j)
                (js "Process exited with code " ++ Number_toString c))) j h Hj)
      as (j1 & -> & Hj1 & Hs1 & _).
    cbn [and_then].
    destruct (emit_attached SExit j1 h Hj1) as (j2 & -> & Hj2 & Hs2 & _).
    exists j2, [SError (nullish (stdErrorText j)
                (js "Process exited with code " ++ Number_toString c)); SExit].
    split; [done|]. split; [done|]. rewrite Hs2, Hs1. by rewrite <- app_assoc.
  - unfold on_process_error.
    repeat case_match;
      match goal with
      | |- context [emit ?s j] =>
          destruct (emit_attached s j h Hj) as (j' & -> & Hj' & Hs & _);
          by exists j', [s]
      end.
  - exists j, []. by rewrite app_nil_r.
Qed.
End HandlerFacts.

(** *** The promises a consumer has drawn *)

Lemma settle_last_fulfilled v ys :
  settle_last v (fulfilled <$> ys) = fulfilled <$> ys.
Proof.
  unfold settle_last. rewrite list_lookup_fmap.
  by destruct (ys !! _).
Qed.

Lemma cell_step_prefix ys ps s :
  (fulfilled <$> ys) `prefix_of` ps → (fulfilled <$> ys) `prefix_of` cell_step ps s.
Proof.
  intros [k ->].
  assert (Hs : ∀ v, (fulfilled <$> ys) `prefix_of` settle_last v ((fulfilled <$> ys) ++ k)).
  { intros v. destruct k as [|c k].
    - rewrite app_nil_r, settle_last_fulfilled. done.
    - rewrite settle_last_app by done. by apply prefix_app_r. }
  destruct s; simpl; [|apply Hs..].
  by apply prefix_app_r.
Qed.

Lemma cells_prefix ys l sigs :
  (fulfilled <$> ys) `prefix_of` cells l →
  (fulfilled <$> ys) `prefix_of` cells (l ++ sigs).
Proof.
  induction sigs as [|s sigs IH] using rev_ind; [by rewrite app_nil_r|].
  intros Hp. rewrite app_assoc, cells_snoc. by apply cell_step_prefix, IH.
Qed.

Lemma cell_step_resolved ps s k v :
  ps !! k = Some (Resolved v) → cell_step ps s !! k = Some (Resolved v).
Proof.
  intros Hk.
  assert (Hs : ∀ w, settle_last w ps !! k = Some (Resolved v)).
  { intros w. unfold settle_last.
    destruct (ps !! (length ps - 1)) as [[|?]|] eqn:Hl; try done.
    rewrite list_lookup_insert_ne; [done|]. intros <-. congruence. }
  destruct s; simpl; [|apply Hs..].
  rewrite lookup_app_l; [apply Hs|].
  rewrite settle_last_length. by apply lookup_lt_Some in Hk.
Qed.

Lemma cells_resolved l sigs k v :
  cells l !! k = Some (Resolved v) → cells (l ++ sigs) !! k = Some (Resolved v).
Proof.
  induction sigs as [|s sigs IH] using rev_ind; [by rewrite app_nil_r|].
  intros Hp. rewrite app_assoc, cells_snoc. by apply cell_step_resolved, IH.
Qed.

Lemma cells_length l sigs : length (cells l) ≤ length (cells (l ++ sigs)).
Proof.
  induction sigs as [|s sigs IH] using rev_ind; [by rewrite app_nil_r|].
  rewrite app_assoc, cells_snoc.
  destruct s; simpl; rewrite ?length_app, settle_last_length; lia.
Qed.

Lemma fulfilled_prefix_snoc ys ps m :
  (fulfilled <$> ys) `prefix_of` ps → ps !! length ys = Some (fulfilled m) →
  (fulfilled <$> (ys ++ [m])) `prefix_of` ps.
Proof.
  intros [k ->] Hm. rewrite lookup_app_r in Hm by (by rewrite length_fmap).
  rewrite length_fmap, Nat.sub_diag in Hm. destruct k as [|c k]; [done|].
  simpl in Hm. injection Hm as ->. rewrite fmap_app. simpl.
  exists k. by rewrite <- app_assoc.
Qed.

(** A consumer that has drawn [ys] has drawn records that come before
    the first end signal, and all of them once it meets a promise that
    holds no record. *)
Lemma drawn_prefix ys l :
  (fulfilled <$> ys) `prefix_of` cells l → ys `prefix_of` records_before_end l.
Proof.
  intros Hp.
  assert (Hshape : ∃ c rest, cells l = (fulfilled <$> records_before_end l) ++ c :: rest
                             ∧ ∀ m, c ≠ fulfilled m).
  { pose proof (cells_shape l) as Hs. destruct (forallb is_record l).
    - by exists Pending, [].
    - destruct Hs as [rest ->]. by exists (Resolved None), rest. }
  destruct Hshape as (c & rest & Hc & Hne). rewrite Hc in Hp.
  revert Hp. generalize (records_before_end l). clear Hc.
  induction ys as [|y ys IH]; intros recs Hp; [apply prefix_nil|].
  destruct recs as [|r recs]; simpl in Hp.
  - apply prefix_cons_inv_1 in Hp. by destruct (Hne y).
  - pose proof (prefix_cons_inv_1 _ _ _ _ Hp) as [= ->].
    apply prefix_cons, IH. by apply prefix_cons_inv_2 in Hp.
Qed.

Lemma drawn_all ys l c :
  (fulfilled <$> ys) `prefix_of` cells l →
  cells l !! length ys = Some c → (∀ m, c ≠ fulfilled m) →
  ys = records_before_end l.
Proof.
  intros Hp Hc Hne. pose proof (drawn_prefix ys l Hp) as [k Hk].
  destruct k as [|m k]; [by rewrite app_nil_r in Hk|].
  pose proof (cells_shape l) as Hs.
  assert (Hm : cells l !! length ys = Some (fulfilled m)).
  { assert (Hf : (fulfilled <$> records_before_end l) !! length ys = Some (fulfilled m)).
    { rewrite Hk, list_lookup_fmap, lookup_app_r, Nat.sub_diag by done. done. }
    destruct (forallb is_record l).
    - rewrite Hs. by apply lookup_app_l_Some.
    - destruct Hs as [rest ->]. by apply lookup_app_l_Some. }
  rewrite Hm in Hc. injection Hc as <-. by destruct (Hne m).
Qed.

(** *** The invariant of a run *)

Lemma yielded_snoc l r :
  yielded (l ++ [r]) = yielded l ++ (if r is Yielded m then [m] else []).
Proof. unfold yielded. rewrite omap_app. by destruct r. Qed.

Lemma attached_bound_strict j h ys :
  attached j h → (fulfilled <$> ys) `prefix_of` promises j → h = length ys →
  h < length (promises j).
Proof.
  intros [_ Hp _ _ Hb] [k Hk] ->.
  destruct (decide (length ys < length (promises j))) as [|Hge]; [done|].
  assert (k = []) as ->.
  { apply (f_equal length) in Hk. rewrite length_app, length_fmap in Hk.
    destruct k; [done|simpl in Hk; lia]. }
  rewrite app_nil_r in Hk. exfalso.
  destruct ys as [|y ys _] using rev_ind.
  - apply (cells_nonempty (signals_of 0 j)). by rewrite <- Hp, Hk.
  - apply (cells_last (signals_of 0 j) y).
    rewrite <- Hp, Hk, fmap_app. simpl. by rewrite last_snoc.
Qed.

Section FollowingFacts.
Context `{Host}.

Lemma following_start args : following (perform (initial args) Next).
Proof.
  split; [done|]. exists 1. split; [by split|]. split; [by exists [Pending]|].
  done.
Qed.

(** The [await] on promise [p], next in line, keeps the invariant. *)
Lemma following_await j p settled0 :
  attached j (S p) →
  (fulfilled <$> yielded settled0) `prefix_of` promises j →
  p = length (yielded settled0) →
  following
    {| instance := j; gen := fst (generator_await p j);
       settled := record_result (snd (generator_await p j)) settled0;
       crashed := None |}.
Proof.
  intros Hj Hpre Hp. split; [done|]. exists (S p). split; [done|].
  unfold generator_await.
  destruct (promises j !! p) as [[|[m|]]|] eqn:Hc; simpl; [done| | |done].
  - rewrite yielded_snoc, length_app. simpl. split; [|lia].
    apply fulfilled_prefix_snoc; [done|]. by rewrite <- Hp.
  - rewrite yielded_snoc, app_nil_r. split; [done|]. by exists p.
Qed.

Lemma draws_left_await j p settled0 :
  p < length (promises j) →
  draws_left
    {| instance := j; gen := fst (generator_await p j);
       settled := record_result (snd (generator_await p j)) settled0;
       crashed := None |}
  ≤ length (messagePromises j).
Proof.
  intros Hlt. unfold generator_await, draws_left.
  destruct (promises j !! p) as [[|[m|]]|] eqn:Hc; simpl; rewrite ?Hc; try lia.
  apply lookup_ge_None in Hc. lia.
Qed.

(** A run of the body keeps the invariant, emits nothing and uses up one
    of the draws that are left. *)
Lemma following_next s :
  following s →
  following (perform s Next)
  ∧ received (instance (perform s Next)) = received (instance s)
  ∧ draws_left (perform s Next) ≤ draws_left s - 1.
Proof.
  intros (Hc & h & Hj & Hpre & Hg). unfold perform. rewrite Hc.
  destruct s as [j g st cr]. simpl in *. destruct g as [| |p|]; [done|..].
  - pose proof (attached_bound_strict j h _ Hj Hpre Hg) as Hlt.
    pose proof (attached_queue _ _ Hj) as Hq.
    replace (length (promises j) - h) with (S (length (promises j) - S h)) in Hq by lia.
    simpl in Hq. unfold next, generator_shift. rewrite Hq.
    set (j' := set_messagePromises _ j).
    assert (Hj' : attached j' (S h)).
    { destruct Hj. split; simpl; try done; lia. }
    pose proof (following_await j' h st Hj' Hpre Hg) as Hf.
    pose proof (draws_left_await j' h st Hlt) as Hd.
    destruct (generator_await h j') as [g' r']. simpl in Hf, Hd.
    split; [done|]. split; [done|].
    unfold draws_left at 2. simpl. rewrite Hq. simpl. simpl in Hd. lia.
  - destruct Hg as [-> Hp]. unfold next.
    pose proof (following_await j p st Hj Hpre Hp) as Hf.
    pose proof (attached_bound _ _ Hj) as Hb.
    unfold draws_left at 2. simpl.
    unfold generator_await in *.
    destruct (promises j !! p) as [[|[m|]]|] eqn:Hpp; simpl in *;
      (split; [done|]); (split; [done|]); unfold draws_left; simpl;
      rewrite ?Hpp; try lia.
    apply lookup_ge_None in Hpp. lia.
  - destruct Hg as (p & -> & Hp & Hend). simpl. split; [|done].
    assert (Hy : yielded (st ++ [Done]) = yielded st)
      by (by rewrite yielded_snoc, app_nil_r).
    split; [done|]. exists (S p). split; [done|]. simpl. rewrite Hy.
    split; [done|]. by exists p.
Qed.

Lemma following_handle s a :
  a ≠ Next → following s →
  following (perform s a)
  ∧ ∃ sigs, signals_of 0 (instance (perform s a))
            = signals_of 0 (instance s) ++ sigs.
Proof.
  intros Ha (Hc & h & Hj & Hpre & Hg).
  assert (Hperf : perform s a = after_handler (handle a (instance s)) s).
  { unfold perform. rewrite Hc. by destruct a. }
  rewrite Hperf. clear Hperf.
  destruct (handle_attached a _ h Hj) as (j' & sigs & -> & Hj' & Hs).
  pose proof (attached_promises _ _ Hj) as Hps.
  pose proof (attached_promises _ _ Hj') as Hps'.
  assert (Hpre' : (fulfilled <$> yielded (settled s)) `prefix_of` promises j').
  { rewrite Hps', Hs. apply cells_prefix. by rewrite <- Hps. }
  split; [|by exists sigs]. split; [done|]. exists h.
  split; [done|]. split; [done|]. simpl.
  destruct (gen s) as [| |p|]; try done.
  destruct Hg as (p & -> & Hp & Hend). exists p. split; [done|]. split; [done|].
  rewrite Hps', Hs. apply cells_resolved. by rewrite <- Hps.
Qed.

Lemma following_perform s a : following s → following (perform s a).
Proof.
  intros Hf. destruct a; try (by apply following_handle).
  by apply following_next.
Qed.
End FollowingFacts.

Section DrainFacts.
Context `{Host}.

Lemma following_perform_all s actions :
  following s → following (perform_all s actions).
Proof.
  revert s. induction actions as [|a actions IH]; intros s Hs; [done|].
  apply IH. by apply following_perform.
Qed.

Lemma no_draws_left s : following s → draws_left s = 0 → waiting s.
Proof.
  intros (_ & h & Hj & Hpre & Hg) Hd. unfold draws_left in Hd. unfold waiting.
  destruct (gen s) as [| |p|]; [done| | |by left].
  - pose proof (attached_bound_strict _ h _ Hj Hpre Hg) as Hlt.
    rewrite (attached_queue _ _ Hj), length_seq in Hd. lia.
  - right. exists p. split; [done|].
    by destruct (promises (instance s) !! p) as [[|?]|].
Qed.

(** Enough runs of the body bring the generator to a pending promise or
    to its end, and emit nothing. *)
Lemma draw_until_waiting k s :
  following s → draws_left s ≤ k →
  following (perform_all s (replicate k Next))
  ∧ received (instance (perform_all s (replicate k Next))) = received (instance s)
  ∧ waiting (perform_all s (replicate k Next)).
Proof.
  revert s. induction k as [|k IH]; intros s Hs Hk.
  - split; [exact Hs|]. split; [done|]. apply no_draws_left; [done|]. simpl. lia.
  - destruct (following_next s Hs) as (Hs1 & Hr1 & Hd1).
    destruct (IH (perform s Next) Hs1) as (Hs2 & Hr2 & Hg2); [lia|].
    change (perform_all s (replicate (S k) Next))
      with (perform_all (perform s Next) (replicate k Next)).
    split; [done|]. split; [|done]. by rewrite Hr2.
Qed.

Lemma draws_left_queue s :
  draws_left s ≤ S (length (messagePromises (instance s))).
Proof. unfold draws_left. repeat case_match; lia. Qed.

Lemma following_drawn_prefix s :
  following s →
  yielded (settled s) `prefix_of` records_before_end (signals_of 0 (instance s)).
Proof.
  intros (_ & h & Hj & Hpre & _). apply drawn_prefix.
  by rewrite <- (attached_promises _ _ Hj).
Qed.

Lemma following_drawn_all s :
  following s → waiting s →
  yielded (settled s) = records_before_end (signals_of 0 (instance s)).
Proof.
  intros (_ & h & Hj & Hpre & Hg) Hw.
  destruct Hw as [Hw|(p & Hw & Hp)]; rewrite Hw in Hg;
    rewrite (attached_promises _ _ Hj) in *.
  - destruct Hg as (p & _ & -> & Hp). by apply (drawn_all _ _ (Resolved None)).
  - destruct Hg as (_ & ->). by apply (drawn_all _ _ Pending).
Qed.

Lemma drain_spec s :
  following s →
  yielded (settled (drain s)) = records_before_end (signals_of 0 (instance s))
  ∧ signals_of 0 (instance (drain s)) = signals_of 0 (instance s).
Proof.
  intros Hs. unfold drain.
  destruct (draw_until_waiting (S (length (messagePromises (instance s)))) s Hs)
    as (Hs' & Hr & Hg); [apply draws_left_queue|].
  assert (Hsig : signals_of 0 (instance (perform_all s
                   (replicate (S (length (messagePromises (instance s)))) Next)))
                 = signals_of 0 (instance s)).
  { unfold signals_of. by rewrite Hr. }
  split; [|done]. rewrite <- Hsig. by apply following_drawn_all.
Qed.

Lemma records_before_end_prefix l : records_before_end l `prefix_of` records l.
Proof.
  induction l as [|[m| |] l IH]; simpl; try apply prefix_nil.
  by apply prefix_cons.
Qed.

Lemma records_before_end_all l :
  forallb is_record l = true → records_before_end l = records l.
Proof.
  induction l as [|[m| |] l IH]; simpl; try done.
  intros Hl. by rewrite IH.
Qed.

(** Without an error and before the exit, the generator yields what the
    subscriber receives. *)
Lemma pull_is_push_on_records args actions :
  let s := perform_all (initial args) (Next :: actions) in
  forallb is_record (signals_of 0 (instance s)) = true →
  yielded (settled (drain s)) = records (signals_of 0 (instance s)).
Proof.
  intros s Hl.
  assert (Hs : following s).
  { apply (following_perform_all (perform (initial args) Next)), following_start. }
  destruct (drain_spec s Hs) as [-> _]. by apply records_before_end_all.
Qed.

(** C1, amended: in every run on which the generator is started before
    the process does anything, the records the generator yields once it
    is drained are the records the subscriber has received before its
    first error or exit signal, in the same order; what the consumer has
    drawn at any moment is the beginning of them, and they are the
    beginning of the subscriber's records. *)
Theorem pull_is_push_before_end (args : list jsstring) (actions : list action) :
  let s := perform_all (initial args) (Next :: actions) in
  yielded (settled (drain s)) = records_before_end (signals_of 0 (instance s))
  ∧ signals_of 0 (instance (drain s)) = signals_of 0 (instance s)
  ∧ yielded (settled s) `prefix_of` yielded (settled (drain s))
  ∧ yielded (settled (drain s)) `prefix_of` records (signals_of 0 (instance s)).
Proof.
  intros s.
  assert (Hs : following s).
  { apply (following_perform_all (perform (initial args) Next)), following_start. }
  destruct (drain_spec s Hs) as [Hd Hsig].
  split; [done|]. split; [done|]. rewrite Hd. split.
  - by apply following_drawn_prefix.
  - apply records_before_end_prefix.
Qed.
End DrainFacts.

(** A line that is not JSON between records: the subscriber receives the
    three records, the generator yields the first and ends. *)
Lemma pull_stops_at_decode_error :
  let s := @perform_all sample_host (initial [])
             [Next; Line (json "{'MESSAGE':'one'}"); Line (json "{oops");
              Line (json "{'MESSAGE':'two'}"); Line (json "{'MESSAGE':'three'}")] in
  length (yielded (settled (@drain sample_host s))) = 1%nat
  ∧ length (records (signals_of 0 (instance s))) = 3%nat
  ∧ yielded (settled (@drain sample_host s)) ≠ records (signals_of 0 (instance s)).
Proof.
  split; [vm_compute; reflexivity|]. split; [vm_compute; reflexivity|].
  intros Heq. apply (f_equal length) in Heq. vm_compute in Heq. discriminate.
Qed.

(** ** The second generator and the exit of the process *)

Lemma createGenerator_returns j : createGenerator j = (SuspendedStart, j).
Proof. done. Qed.

(** The check of line 276 runs with the first [next()], and a generator
    that fails it changes nothing. *)
Lemma first_next_rejected j :
  generatorInstanceExtists j = true →
  next SuspendedStart j = (Completed, Some (Rejected OnlyOneGenerator), j).
Proof. intros Hj. unfold next, generator_start. by rewrite Hj. Qed.

(** C2: on an instance whose generator has started, a second call of
    [createGenerator] returns a generator object and throws nothing; the
    error comes with the first [next()] on that object, which leaves the
    instance as it was.  Two generator objects made before any [next()]
    are both made with the flag still unset. *)
Example second_generator_is_created (args : list jsstring) :
  let j0 := spawned args in
  let g1 := fst (createGenerator j0) in
  let j1 := snd (next g1 (snd (createGenerator j0))) in
  let g2 := fst (createGenerator j1) in
  generatorInstanceExtists j1 = true
  ∧ createGenerator j1 = (SuspendedStart, j1)
  ∧ next g2 j1 = (Completed, Some (Rejected OnlyOneGenerator), j1)
  ∧ generatorInstanceExtists (snd (createGenerator j0)) = false
  ∧ createGenerator (snd (createGenerator j0)) = (SuspendedStart, j0).
Proof. done. Qed.

(** No listener changes [stdErrorText], which the constructor sets to the
    empty string: it never is [null]. *)
Lemma call_stdErrorText l s j : stdErrorText (call l s j) = stdErrorText j.
Proof.
  destruct l; simpl; try done; unfold settle; repeat case_match; done.
Qed.

Lemma emit_stdErrorText s j j' :
  emit s j = Normal j' → stdErrorText j' = stdErrorText j.
Proof.
  unfold emit. generalize (listeners_of (event_of s) j). intros ls Hn.
  assert (Hj : j' = foldl (λ j l, call l s j) j ls)
    by (destruct ls, s; by simplify_eq).
  rewrite Hj. clear. revert j.
  induction ls as [|l ls IH]; intros j; [done|].
  simpl. by rewrite IH, call_stdErrorText.
Qed.

(** The error of a failed process carries the text of its standard
    error, whatever it is. *)
Lemma exit_error_message `{Host} j c text :
  stdErrorText j = Some text → c ≠ 0%Z →
  on_process_exit (Some c) j = and_then (emit (SError text) j) (emit SExit).
Proof.
  intros Ht Hc. unfold on_process_exit. rewrite Ht. by rewrite bool_decide_true.
Qed.

(** C3: the process exits with code 1 and has written nothing to its
    standard error; the subscriber receives an error whose message is the
    empty string, not the text with the exit code, and then the exit. *)
Example exit_error_has_empty_message :
  let j := subscribe 0 (@spawned [js "-o"; js "json"; js "-f"; js "-n"; js "10"]) in
  ∃ j', @on_process_exit sample_host (Some 1%Z) j = Normal j'
        ∧ signals_of 0 j' = [SError []; SExit]
        ∧ js "Process exited with code " ++ @Number_toString sample_host 1
          = js "Process exited with code 1".
Proof. eexists. split; [reflexivity|]. split; vm_compute; reflexivity. Qed.

(** * Further properties

    What the rest of the class does, read from its code: which options the
    constructor accepts and which tokens it builds from them, what the line
    decoder repairs, what the subscribers receive in a run, and where the
    generator stands. *)

Local Open Scope N_scope.

(** ** The options that the constructor accepts *)

Lemma succeeds_bind {A B} (r : result A) (f : A → result B) :
  succeeds (r ≫= f) ↔ ∃ a, r = Ok a ∧ succeeds (f a).
Proof.
  destruct r as [a|e]; simpl.
  - split; [by exists a|]. by intros (? & [= <-] & ?).
  - split; [by intros [? ?]|]. by intros (? & ? & ?).
Qed.

Lemma succeeds_Ok {A} (a : A) : succeeds (Ok a).
Proof. by exists a. Qed.

Lemma validateFieldName_accepts k :
  succeeds (validateFieldName k) ↔ accepted_field k.
Proof.
  unfold validateFieldName, accepted_field.
  destruct (bool_decide (k ≠ []) && forallb is_field_char k) eqn:Hk.
  - apply andb_true_iff in Hk as [Hne%bool_decide_eq_true Hall].
    split; [done|]. intros _. apply succeeds_Ok.
  - split; [by intros [? ?]|]. intros [Hne Hall].
    by rewrite bool_decide_true, Hall in Hk.
Qed.

Lemma validateFieldName_Ok k k' : validateFieldName k = Ok k' → k' = k.
Proof. unfold validateFieldName. case_match; by intros [= <-]. Qed.

Lemma validatePriority_accepts p :
  succeeds (validatePriority p) ↔ accepted_priority p.
Proof.
  unfold validatePriority, validatePositiveInteger, accepted_priority.
  destruct p as [z|]; simpl.
  - destruct (Z.ltb_spec z 0); simpl.
    + split; [by intros [? ?]|]. intros (z' & [= <-] & ?). lia.
    + destruct (Z.ltb_spec z 0); [lia|]. destruct (Z.gtb_spec z 7); simpl.
      * split; [by intros [? ?]|]. intros (z' & [= <-] & ?). lia.
      * split; [|intros _; apply succeeds_Ok]. intros _. exists z. split; [done|lia].
  - split; [by intros [? ?]|]. by intros (? & ? & ?).
Qed.

Section AcceptedFacts.
Context `{Host}.










Lemma push_filters_accepts f a :
  succeeds (push_filters f a) ↔ Forall (λ kv, accepted_field (fst kv)) f.
Proof.
  revert a. induction f as [|[k v] f IH]; intros a; simpl.
  - split; [by intros _; apply Forall_nil_2|intros _; apply succeeds_Ok].
  - rewrite succeeds_bind, Forall_cons. simpl. split.
    + intros (k' & Hk & Hrest). split.
      * apply validateFieldName_accepts. by exists k'.
      * by apply IH in Hrest.
    + intros [[k' Hk]%validateFieldName_accepts Hrest].
      exists k'. split; [done|]. by apply IH.
Qed.





End AcceptedFacts.

(** ** The priority levels *)

(** X2: the validator of priorities returns its argument unchanged, and it
    accepts exactly the indices of JOURNALD_PRIORITY_STRING, which are the
    eight constants EMERG to DEBUG; each constant is the index of its own
    name.  A number outside 0..7 is refused, not clamped. *)
Theorem priority_levels_are_named (p : number) (z : Z) :
  (validatePriority p = Ok z
   ↔ p = Int z ∧ (0 ≤ z)%Z ∧ is_Some (JOURNALD_PRIORITY_STRING !! Z.to_nat z))
  ∧ (validatePriority p = Ok z ↔ p = Int z ∧ z ∈ priority_levels)
  ∧ Forall2 (λ level name, JOURNALD_PRIORITY_STRING !! Z.to_nat level = Some name)
      priority_levels JOURNALD_PRIORITY_STRING.
Proof.
  assert (Hv : validatePriority p = Ok z ↔ p = Int z ∧ (0 ≤ z ≤ 7)%Z).
  { split.
    - intros Hp. assert (Ha : accepted_priority p).
      { apply validatePriority_accepts. by exists z. }
      destruct Ha as (z' & -> & Hz'). rewrite validatePriority_in_range in Hp by done.
      by injection Hp as <-.
    - intros [-> Hz]. by apply validatePriority_in_range. }
  split; [|split].
  - rewrite Hv. split; intros [-> Hz]; (split; [done|]).
    + split; [lia|]. apply lookup_lt_is_Some. simpl. lia.
    + destruct Hz as [Hz Hl%lookup_lt_is_Some]. simpl in Hl. lia.
  - rewrite Hv. unfold priority_levels, EMERG, ALERT, CRIT, ERROR, WARNING, NOTICE,
      INFO, DEBUG.
    split; intros [-> Hz]; (split; [done|]).
    + assert (Hcases : z = 0%Z ∨ z = 1%Z ∨ z = 2%Z ∨ z = 3%Z ∨ z = 4%Z ∨ z = 5%Z
                       ∨ z = 6%Z ∨ z = 7%Z) by lia.
      rewrite !elem_of_cons. tauto.
    + rewrite !elem_of_cons, elem_of_nil in Hz. lia.
  - repeat constructor.
Qed.

(** ** Dates *)

Lemma is_date_string_length s :
  is_date_string s = true →
  length s = 10%nat ∨ length s = 16%nat ∨ length s = 19%nat.
Proof.
  intros Hs.
  do 10 (destruct s as [|? s]; [done|]).
  destruct s as [|? s]; [by left|].
  do 5 (destruct s as [|? s];
        [by (cbn in Hs; rewrite ?andb_false_r in Hs)|]).
  destruct s as [|? s]; [right; by left|].
  do 2 (destruct s as [|? s];
        [by (cbn in Hs; rewrite ?andb_false_r in Hs)|]).
  destruct s as [|? s]; [right; by right|].
  cbn in Hs. by rewrite ?andb_false_r in Hs.
Qed.

Section DateFacts.
Context `{Host}.

(** X3: a date string that passes the validator is returned unchanged,
    is read by the host as a date, and has 10, 16 or 19 code units: the
    date is always there, so a time of day alone ("18:17" or "18:17:16")
    is refused on every host. *)
Theorem validateDate_needs_the_date (s r : jsstring) :
  validateDate s = Ok r →
  r = s ∧ is_Some (Date_parse s)
  ∧ (length s = 10%nat ∨ length s = 16%nat ∨ length s = 19%nat).
Proof.
  unfold validateDate. destruct (is_date_string s) eqn:Hs; simpl; [|done].
  destruct (Date_parse s) as [t|]; [|done]. intros [= <-].
  split; [done|]. split; [done|]. by apply is_date_string_length.
Qed.
End DateFacts.

Lemma validateDate_needs_the_date_witness :
  js "2022-01-01 12:00" = js "2022-01-01 12:00"
  ∧ is_Some (@Date_parse sample_host (js "2022-01-01 12:00"))
  ∧ (length (js "2022-01-01 12:00") = 10%nat ∨ length (js "2022-01-01 12:00") = 16%nat
     ∨ length (js "2022-01-01 12:00") = 19%nat).
Proof.
  apply (@validateDate_needs_the_date sample_host (js "2022-01-01 12:00")
           (js "2022-01-01 12:00")).
  vm_compute. reflexivity.
Defined.

Lemma digit_range c : is_digit c = true → 48 ≤ c ≤ 57.
Proof. unfold is_digit. chars. split_cmp; done || lia. Qed.

Lemma replace_T_and_millis_plain c rest :
  c ≠ chr "T" → c ≠ chr "." →
  replace_T_and_millis (c :: rest) = c :: replace_T_and_millis rest.
Proof.
  intros HT Hdot. cbn [replace_T_and_millis].
  destruct (N.eqb_spec c (chr "T")); [done|].
  destruct (N.eqb_spec c (chr ".")); [done|]. simpl.
  by do 4 (destruct rest as [|? rest]; [done|]).
Qed.

Lemma replace_T_and_millis_digit c rest :
  is_digit c = true →
  replace_T_and_millis (c :: rest) = c :: replace_T_and_millis rest.
Proof.
  intros Hc%digit_range. apply replace_T_and_millis_plain; chars; lia.
Qed.

Lemma digit_not_space c : is_digit c = true → is_js_space c = false.
Proof.
  intros Hc%digit_range. unfold is_js_space. split_cmp; done.
Qed.

Lemma iso_date_string iso :
  is_iso_string iso = true →
  trim (replace_T_and_millis iso) = take 10 iso ++ chr " " :: take 8 (drop 11 iso)
  ∧ is_date_string (trim (replace_T_and_millis iso)) = true.
Proof.
  intros Hiso.
  do 24 (destruct iso as [|? iso]; [done|]). destruct iso; [|done].
  cbn [is_iso_string forallb] in Hiso.
  repeat match goal with
  | H : (_ && _) = true |- _ => apply andb_true_iff in H; destruct H
  end.
  repeat match goal with
  | H : (_ =? _) = true |- _ => apply N.eqb_eq in H; subst
  end.
  assert (Hrep : replace_T_and_millis
            [n; n0; n1; n2; chr "-"; n4; n5; chr "-"; n7; n8; chr "T"; n10; n11;
             chr ":"; n13; n14; chr ":"; n16; n17; chr "."; n19; n20; n21; chr "Z"]
          = [n; n0; n1; n2; chr "-"; n4; n5; chr "-"; n7; n8; chr " "; n10; n11;
             chr ":"; n13; n14; chr ":"; n16; n17; chr " "]).
  { repeat first
      [ rewrite replace_T_and_millis_digit by done
      | rewrite (replace_T_and_millis_plain (chr "-")) by done
      | rewrite (replace_T_and_millis_plain (chr ":")) by done
      | progress change (replace_T_and_millis (chr "T" :: ?l))
          with (chr " " :: replace_T_and_millis l) ].
    cbn [replace_T_and_millis].
    change (chr "." =? chr "T") with false. change (chr "." =? chr ".") with true.
    change (chr "Z" =? chr "Z") with true. cbn iota.
    by repeat match goal with H : is_digit _ = true |- _ => rewrite H; clear H end. }
  rewrite Hrep. clear Hrep.
  assert (Htrim : trim [n; n0; n1; n2; chr "-"; n4; n5; chr "-"; n7; n8; chr " "; n10; n11;
             chr ":"; n13; n14; chr ":"; n16; n17; chr " "]
          = [n; n0; n1; n2; chr "-"; n4; n5; chr "-"; n7; n8; chr " "; n10; n11;
             chr ":"; n13; n14; chr ":"; n16; n17]).
  { unfold trim. cbn [trim_start]. rewrite (digit_not_space n) by done.
    cbn [rev app trim_start]. change (is_js_space (chr " ")) with true. cbn iota.
    rewrite (digit_not_space n17) by done. done. }
  rewrite Htrim. split; [done|].
  cbn [is_date_string forallb].
  repeat match goal with H : is_digit _ = true |- _ => rewrite H; clear H end.
  reflexivity.
Qed.

Section IsoFacts.
Context `{Host}.

(** X4: a Date object whose ISO string has the common form (a year of
    four digits) is passed to journalctl as its first ten code units, a
    space and the time of day to the second, the milliseconds and the zone
    letter dropped; that text has the format of the validated date
    strings. *)
Theorem date_object_formatted (t : Z) :
  is_iso_string (Date_toISOString t) = true →
  ∃ d, dateString_of (DateObject (Some t)) = Ok d
       ∧ d = take 10 (Date_toISOString t) ++ chr " " :: take 8 (drop 11 (Date_toISOString t))
       ∧ is_date_string d = true.
Proof.
  intros Hiso. eexists. split; [reflexivity|]. by apply iso_date_string.
Qed.
End IsoFacts.

Lemma date_object_formatted_witness :
  ∃ d, @dateString_of sample_host (DateObject (Some 1709210096789%Z)) = Ok d
       ∧ d = take 10 (@Date_toISOString sample_host 1709210096789%Z)
             ++ chr " " :: take 8 (drop 11 (@Date_toISOString sample_host 1709210096789%Z))
       ∧ is_date_string d = true.
Proof.
  apply (@date_object_formatted sample_host 1709210096789%Z).
  vm_compute. reflexivity.
Defined.

(** On the sample host: *)
Example date_object_example :
  @dateString_of sample_host (DateObject (Some 1709210096789%Z))
  = Ok (js "2024-02-29 12:34:56").
Proof. vm_compute. reflexivity. Qed.

(** ** The tokens of the options *)

Lemma push_fields_tokens fields a args :
  push_fields fields a = Ok args → args = a ++ output_field_tokens fields.
Proof.
  revert a. induction fields as [|k fields IH]; intros a; simpl.
  - intros [= <-]. by rewrite app_nil_r.
  - destruct (validateFieldName k) as [k'|] eqn:Hk; simpl; [|done].
    apply validateFieldName_Ok in Hk as ->.
    intros ->%IH. by rewrite <- app_assoc.
Qed.

Lemma push_missing_tokens name fields a :
  push_missing name fields a
  = a ++ output_field_tokens (filter (λ n, n ∉ fields) [name]).
Proof.
  unfold push_missing. rewrite filter_cons, filter_nil.
  case_bool_decide; case_decide; try done; simpl; by rewrite ?app_nil_r.
Qed.

Lemma output_field_tokens_app a b :
  output_field_tokens (a ++ b) = output_field_tokens a ++ output_field_tokens b.
Proof. apply flat_map_app. Qed.

Lemma push_outputFields_tokens fields a args :
  push_outputFields (Some fields) a = Ok args →
  args = a ++ output_field_tokens (requested_fields fields).
Proof.
  unfold push_outputFields.
  destruct (push_fields fields a) as [b|] eqn:Hb; simpl; [|done].
  apply push_fields_tokens in Hb as ->. intros [= <-].
  rewrite !push_missing_tokens. unfold requested_fields, forced_fields.
  rewrite <- !app_assoc, <- !output_field_tokens_app. do 3 f_equal.
  rewrite !filter_cons, !filter_nil. by repeat case_decide.
Qed.

Lemma forced_fields_NoDup : NoDup forced_fields.
Proof.
  apply (bool_decide_unpack _). by vm_compute.
Qed.

Lemma requested_fields_forced fields name :
  name ∈ forced_fields → name ∈ requested_fields fields.
Proof.
  intros Hn. unfold requested_fields. apply elem_of_app.
  destruct (decide (name ∈ fields)); [by left|right].
  by apply list_elem_of_filter.
Qed.

Lemma requested_fields_NoDup fields : NoDup fields → NoDup (requested_fields fields).
Proof.
  intros Hf. apply NoDup_app. split; [done|]. split.
  - intros x Hx [Hnx _]%list_elem_of_filter. done.
  - apply NoDup_filter, forced_fields_NoDup.
Qed.

Section TokenFacts.
Context `{Host}.

Lemma build_args_fields options outputFields :
  build_args options outputFields
  = build_args options None ≫= push_outputFields outputFields.
Proof.
  unfold build_args.
  destruct (push_until options _) as [a1|]; simpl; [|done].
  destruct (push_lines options _) as [a2|]; simpl; [|done].
  destruct (push_since options _) as [a3|]; simpl; [|done].
  destruct (check_since_until options); simpl; [|done].
  destruct (push_priority options _) as [a5|]; simpl; [|done].
  destruct (push_identifier options _) as [a6|]; simpl; [|done].
  destruct (push_unit options _) as [a7|]; simpl; [|done].
  by destruct (push_filter options _) as [a8|].
Qed.

(** X5: with a list of output fields, the arguments are those built
    without it followed by one "--output-field" pair for each field of the
    list, in order, and then for each of MESSAGE, SYSLOG_IDENTIFIER and
    _HOSTNAME that the list does not hold: the three are always asked
    for, and none is asked for twice when the list has no repetition. *)
Theorem output_fields_requested (options : JournalCtlOptions)
  (fields : list jsstring) (args : list jsstring) :
  build_args options (Some fields) = Ok args →
  (∃ before, build_args options None = Ok before
             ∧ args = before ++ output_field_tokens (requested_fields fields))
  ∧ (∀ name, name ∈ forced_fields → name ∈ requested_fields fields)
  ∧ (NoDup fields → NoDup (requested_fields fields)).
Proof.
  rewrite build_args_fields.
  destruct (build_args options None) as [before|]; simpl; [|done].
  intros ->%push_outputFields_tokens.
  split; [by exists before|]. split.
  - intros name. apply requested_fields_forced.
  - apply requested_fields_NoDup.
Qed.
End TokenFacts.

Lemma output_fields_requested_witness :
  (∃ before, @build_args sample_host no_options None = Ok before
     ∧ [js "-o"; js "json"; js "-f"; js "-n"; js "10";
        js "--output-field"; js "PRIORITY"; js "--output-field"; js "MESSAGE";
        js "--output-field"; js "SYSLOG_IDENTIFIER"; js "--output-field"; js "_HOSTNAME"]
       = before ++ output_field_tokens (requested_fields [js "PRIORITY"; js "MESSAGE"]))
  ∧ (∀ name, name ∈ forced_fields → name ∈ requested_fields [js "PRIORITY"; js "MESSAGE"])
  ∧ (NoDup [js "PRIORITY"; js "MESSAGE"]
     → NoDup (requested_fields [js "PRIORITY"; js "MESSAGE"])).
Proof.
  apply (@output_fields_requested sample_host no_options [js "PRIORITY"; js "MESSAGE"]).
  vm_compute. reflexivity.
Defined.

Lemma push_filters_tokens f a args :
  push_filters f a = Ok args → args = a ++ filter_tokens f.
Proof.
  revert a. induction f as [|[k v] f IH]; intros a; simpl.
  - intros [= <-]. by rewrite app_nil_r.
  - destruct (validateFieldName k) as [k'|] eqn:Hk; simpl; [|done].
    apply validateFieldName_Ok in Hk as ->.
    intros ->%IH. by rewrite <- app_assoc.
Qed.

Lemma field_char_not_equals c : is_field_char c = true → c ≠ chr "=" ∧ c ≠ chr "-".
Proof.
  unfold is_field_char, is_upper, is_digit. chars. split_cmp; done || lia.
Qed.

Lemma key_value_split k1 v1 k2 v2 :
  forallb is_field_char k1 = true → forallb is_field_char k2 = true →
  k1 ++ chr "=" :: v1 = k2 ++ chr "=" :: v2 → k1 = k2 ∧ v1 = v2.
Proof.
  revert k2. induction k1 as [|c k1 IH]; intros [|c2 k2]; simpl.
  - by intros _ _ [= ->].
  - intros _ [Hc%field_char_not_equals _]%andb_true_iff [= <-]. by destruct Hc.
  - intros [Hc%field_char_not_equals _]%andb_true_iff _ [= ->]. by destruct Hc.
  - intros [_ H1]%andb_true_iff [_ H2]%andb_true_iff [= -> Heq].
    destruct (IH k2 H1 H2 Heq) as [-> ->]. done.
Qed.

Lemma push_filters_valid f a args :
  push_filters f a = Ok args → Forall (λ kv, accepted_field (fst kv)) f.
Proof.
  intros Hf. apply (push_filters_accepts f a). by exists args.
Qed.

(** X6: the tokens built from a filter are "KEY=value" for its entries,
    in order; no token begins with a dash, so none reads as an option; and
    the tokens determine the filter: two filters that give the same tokens
    are equal, since a key holds no "=". *)
Theorem filter_tokens_unambiguous (f1 f2 : list (jsstring * jsstring))
  (tokens : list jsstring) :
  push_filters f1 [] = Ok tokens →
  (push_filters f2 [] = Ok tokens → f1 = f2)
  ∧ tokens = filter_tokens f1
  ∧ Forall (λ t, ∃ c, head t = Some c ∧ c ≠ chr "-") tokens.
Proof.
  intros H1. pose proof (push_filters_valid _ _ _ H1) as Hv1.
  apply push_filters_tokens in H1. simpl in H1. subst tokens.
  split; [|split; [done|]].
  - intros H2. pose proof (push_filters_valid _ _ _ H2) as Hv2.
    apply push_filters_tokens in H2. simpl in H2.
    revert f2 H2 Hv2. induction Hv1 as [|[k1 v1] f1 [_ Hk1] _ IH];
      intros [|[k2 v2] f2]; simpl; try done.
    intros [= Hkv Hrest] [[_ Hk2] Hv2]%Forall_cons. simpl in *.
    destruct (key_value_split _ _ _ _ Hk1 Hk2 Hkv) as [-> ->].
    f_equal. by apply IH.
  - induction Hv1 as [|[k v] f [Hne Hk] _ IH]; simpl; [apply Forall_nil_2|].
    apply Forall_cons. split; [|done].
    destruct k as [|c k]; [done|]. exists c. split; [done|].
    simpl in Hk. apply andb_true_iff in Hk as [Hc%field_char_not_equals _].
    by destruct Hc.
Qed.

Lemma filter_tokens_unambiguous_witness :
  (push_filters [(js "_UID", js "0"); (js "PRIORITY", js "a=b")] []
   = Ok [js "_UID=0"; js "PRIORITY=a=b"]
   → [(js "_UID", js "0"); (js "PRIORITY", js "a=b")]
     = [(js "_UID", js "0"); (js "PRIORITY", js "a=b")])
  ∧ [js "_UID=0"; js "PRIORITY=a=b"]
    = filter_tokens [(js "_UID", js "0"); (js "PRIORITY", js "a=b")]
  ∧ Forall (λ t, ∃ c, head t = Some c ∧ c ≠ chr "-") [js "_UID=0"; js "PRIORITY=a=b"].
Proof.
  apply (filter_tokens_unambiguous [(js "_UID", js "0"); (js "PRIORITY", js "a=b")]
           [(js "_UID", js "0"); (js "PRIORITY", js "a=b")]).
  vm_compute. reflexivity.
Defined.



Section HeadFacts.
Context `{Host}.


(** X7: the arguments of a successful construction begin with "-o"
    "json"; then comes "-U" with the date when until is set, and "-f" when
    it is not, so the process follows the journal exactly when no until is
    set; then "-a" when all is true. *)
Theorem follow_unless_until (options : JournalCtlOptions)
  (outputFields : option (list jsstring)) (args : list jsstring) :
  build_args options outputFields = Ok args →
  ∃ rest,
    let flag := if opt_all options is Some true then [js "-a"] else [] in
    match truthy_date (opt_until options) with
    | Some u =>
        ∃ d, dateString_of u = Ok d
             ∧ args = [js "-o"; js "json"; js "-U"; d] ++ flag ++ rest
    | None => args = [js "-o"; js "json"; js "-f"] ++ flag ++ rest
    end.
Proof.
  rewrite build_args_parts. unfold args_before_lines, push_until, push_all.
  destruct (truthy_date (opt_until options)) as [u|].
  - destruct (dateString_of u) as [d|]; simpl; [|done].
    destruct (push_lines options []) as [count|]; simpl; [|done].
    destruct (args_after_lines options outputFields) as [after|]; simpl; [|done].
    intros [= <-]. exists (count ++ after), d. split; [done|].
    by destruct (opt_all options) as [[|]|].
  - simpl.
    destruct (push_lines options []) as [count|]; simpl; [|done].
    destruct (args_after_lines options outputFields) as [after|]; simpl; [|done].
    intros [= <-]. exists (count ++ after).
    by destruct (opt_all options) as [[|]|].
Qed.

End HeadFacts.

Lemma follow_unless_until_witness :
  ∃ rest,
    let flag := if opt_all (set_opt_until (Some (DateString (js "2022-01-03"))) no_options)
                is Some true then [js "-a"] else [] in
    match truthy_date (opt_until (set_opt_until (Some (DateString (js "2022-01-03")))
                                    no_options)) with
    | Some u =>
        ∃ d, @dateString_of sample_host u = Ok d
             ∧ [js "-o"; js "json"; js "-U"; js "2022-01-03"]
               = [js "-o"; js "json"; js "-U"; d] ++ flag ++ rest
    | None => [js "-o"; js "json"; js "-U"; js "2022-01-03"]
              = [js "-o"; js "json"; js "-f"] ++ flag ++ rest
    end.
Proof.
  apply (@follow_unless_until sample_host
           (set_opt_until (Some (DateString (js "2022-01-03"))) no_options) None).
  vm_compute. reflexivity.
Defined.


(** ** What the line decoder repairs *)

Lemma replace_trailing_comma_valid line v :
  JSON_parse line = Some v → replace_trailing_comma line = line.
Proof.
  intros Hv. destruct (replace_trailing_comma_cases line) as [Heq|(q & ws & Hws & ->)];
    [done|].
  by rewrite parse_trailing_comma in Hv.
Qed.

(** X9: a line that is valid JSON as it stands is not changed by the
    replacement, whatever commas and braces its strings hold; it is decoded
    to the record of the parsed value with the two defaults, and fails when
    the value is no object. *)
Theorem repair_leaves_valid_json (line : jsstring) (v : value) :
  JSON_parse line = Some v →
  replace_trailing_comma line = line
  ∧ parse_line line = with_defaults <$> as_object v.
Proof.
  intros Hv. pose proof (replace_trailing_comma_valid line v Hv) as Hr.
  split; [done|]. unfold parse_line. rewrite Hr, Hv. simpl.
  by destruct (as_object v).
Qed.

Lemma repair_leaves_valid_json_witness :
  replace_trailing_comma (json "{'MESSAGE':'a, }','N':[1,2]}")
  = json "{'MESSAGE':'a, }','N':[1,2]}"
  ∧ parse_line (json "{'MESSAGE':'a, }','N':[1,2]}")
    = with_defaults <$> as_object (VObj {[ js "MESSAGE" := VStr (js "a, }");
                                             js "N" := VArr [VNum (js "1"); VNum (js "2")] ]}).
Proof.
  apply (repair_leaves_valid_json (json "{'MESSAGE':'a, }','N':[1,2]}")).
  vm_compute. reflexivity.
Defined.

Lemma spaces_app a b : spaces a → spaces b → spaces (a ++ b).
Proof. intros Ha Hb. apply Forall_app. by split. Qed.

Lemma spaces_space : spaces [32].
Proof. apply Forall_singleton. done. Qed.

(** X10: the replacement removes one comma only: of a line that ends
    with two commas before the closing brace the last is replaced, the
    other stays, and the line is not decoded; the error names the raw
    line. *)
Theorem second_trailing_comma_not_repaired (q ws ws' : jsstring) :
  spaces ws → spaces ws' →
  let line := q ++ chr "," :: ws ++ chr "," :: ws' ++ [chr "}"] in
  replace_trailing_comma line = q ++ chr "," :: ws ++ js " }"
  ∧ parse_line line = None
  ∧ ∀ j, on_line line j = emit (SError (js "Could not parse JSON: " ++ line)) j.
Proof.
  intros Hws Hws' line.
  assert (Hr : replace_trailing_comma line = q ++ chr "," :: ws ++ js " }").
  { unfold line.
    replace (q ++ chr "," :: ws ++ chr "," :: ws' ++ [chr "}"])
      with ((q ++ chr "," :: ws) ++ chr "," :: ws' ++ [chr "}"])
      by (by rewrite <- app_assoc).
    rewrite replace_trailing_comma_match by done. by rewrite <- app_assoc. }
  assert (Hp : parse_line line = None).
  { unfold parse_line. rewrite Hr.
    replace (q ++ chr "," :: ws ++ js " }") with (q ++ chr "," :: (ws ++ [32]) ++ [chr "}"])
      by (by rewrite <- app_assoc).
    rewrite parse_trailing_comma; [done|]. apply spaces_app; [done|apply spaces_space]. }
  split; [done|]. split; [done|]. intros j. by apply on_line_fails.
Qed.

Lemma second_trailing_comma_not_repaired_witness :
  let line := json "{'MESSAGE':'up'" ++ chr "," :: js " " ++ chr "," :: [] ++ [chr "}"] in
  replace_trailing_comma line = json "{'MESSAGE':'up'" ++ chr "," :: js " " ++ js " }"
  ∧ parse_line line = None
  ∧ ∀ j, on_line line j = emit (SError (js "Could not parse JSON: " ++ line)) j.
Proof.
  apply (second_trailing_comma_not_repaired (json "{'MESSAGE':'up'") (js " ") []).
  - apply Forall_singleton. reflexivity.
  - apply Forall_nil_2.
Defined.

Lemma replace_trailing_comma_last line :
  last line ≠ Some (chr "}") → replace_trailing_comma line = line.
Proof.
  induction line as [|c line IH]; [done|]. intros Hl. simpl.
  destruct (closes_line line) eqn:Hc.
  - apply closes_line_inv in Hc as (ws & _ & ->). exfalso. apply Hl.
    rewrite app_comm_cons. by rewrite last_snoc.
  - rewrite andb_false_r. f_equal. apply IH. intros Hl'. apply Hl.
    destruct line; [done|]. done.
Qed.

Lemma run_idle_brace_after_comma ws p p' text :
  spaces ws → feed TComma p = Some p' →
  run (Some (LIdle, p')) (ws ++ chr "}" :: text) = None.
Proof.
  intros Hws Hf. rewrite run_app.
  destruct (run_idle_spaces ws p' Hws) as [-> | ->]; [|apply run_None].
  rewrite run_cons. change (step_machine (chr "}") (LIdle, p')) with (idle <$> feed TRBrace p').
  rewrite (feed_comma_brace _ _ Hf). apply run_None.
Qed.

Lemma tail_comma_then s ws text :
  spaces ws → Forall filler text →
  finish (run (Some s) (chr "," :: ws ++ chr "}" :: text)) = None.
Proof.
  intros Hws Ht. destruct s as [m p]. destruct (in_string m) eqn:Hm.
  { apply finish_in_string; [|done]. apply Forall_cons. split; [by right; right|].
    apply Forall_app. split; [by apply spaces_filler|].
    apply Forall_cons. split; [right; by left|done]. }
  rewrite run_cons, step_filler by (done || by right; right).
  destruct (token_end (m, p)) as [p'|]; [|by rewrite run_None].
  cbn [mbind option_bind]. rewrite step_idle_comma.
  destruct (feed TComma p') as [p''|] eqn:Hf; [|by rewrite run_None].
  change (idle <$> Some p'') with (Some (LIdle, p'')).
  by rewrite (run_idle_brace_after_comma ws p' p'' text).
Qed.

(** X11: the replacement needs the closing brace at the very end of the
    line: with white space after the brace the comma stays, the line is not
    decoded, and the error names the raw line. *)
Theorem comma_kept_when_brace_is_not_last (p ws ws' : jsstring) :
  spaces ws → spaces ws' → ws' ≠ [] →
  let line := p ++ chr "," :: ws ++ chr "}" :: ws' in
  replace_trailing_comma line = line
  ∧ parse_line line = None
  ∧ ∀ j, on_line line j = emit (SError (js "Could not parse JSON: " ++ line)) j.
Proof.
  intros Hws Hws' Hne line.
  assert (Hr : replace_trailing_comma line = line).
  { apply replace_trailing_comma_last. unfold line.
    destruct ws' as [|c ws' _] using rev_ind; [done|].
    replace (p ++ chr "," :: ws ++ chr "}" :: ws' ++ [c])
      with ((p ++ chr "," :: ws ++ chr "}" :: ws') ++ [c])
      by (rewrite <- !app_assoc; simpl; by rewrite <- app_assoc).
    rewrite last_snoc. intros [= ->].
    unfold spaces in Hws'. rewrite Forall_app, Forall_singleton in Hws'.
    by destruct Hws' as [_ Hc]. }
  assert (Hp : parse_line line = None).
  { unfold parse_line. rewrite Hr. unfold JSON_parse, line. rewrite run_app.
    destruct (run (Some start) p) as [s|]; [|by rewrite run_None].
    rewrite tail_comma_then; [done|done|]. by apply spaces_filler. }
  split; [done|]. split; [done|]. intros j. by apply on_line_fails.
Qed.

Lemma comma_kept_when_brace_is_not_last_witness :
  let line := json "{'MESSAGE':'up'" ++ chr "," :: [] ++ chr "}" :: js " " in
  replace_trailing_comma line = line
  ∧ parse_line line = None
  ∧ ∀ j, on_line line j = emit (SError (js "Could not parse JSON: " ++ line)) j.
Proof.
  apply (comma_kept_when_brace_is_not_last (json "{'MESSAGE':'up'") [] (js " ")).
  - apply Forall_nil_2.
  - apply Forall_singleton. reflexivity.
  - discriminate.
Defined.

Local Close Scope N_scope.

(** ** What the subscribers receive *)

Lemma call_received l s j :
  received (call l s j) = received j ++ ((λ id, (id, s)) <$> subscribers [l])
  ∧ listeners (call l s j) = listeners j.
Proof.
  destruct l; simpl; rewrite ?app_nil_r; try done.
  - by destruct (settle_fields (resolve j) None j) as (? & _ & _ & ? & _).
  - destruct s as [m| |]; [|done..].
    match goal with |- context [settle ?p ?v ?j'] =>
      by destruct (settle_fields p v j') as (? & _ & _ & ? & _) end.
  - by destruct (settle_fields (resolve j) None j) as (? & _ & _ & ? & _).
Qed.

Lemma subscribers_app a b : subscribers (a ++ b) = subscribers a ++ subscribers b.
Proof. apply omap_app. Qed.

Lemma calls_received ls s j :
  received (foldl (λ j l, call l s j) j ls)
  = received j ++ ((λ id, (id, s)) <$> subscribers ls)
  ∧ listeners (foldl (λ j l, call l s j) j ls) = listeners j.
Proof.
  revert j. induction ls as [|l ls IH]; intros j; cbn [foldl].
  - by rewrite app_nil_r.
  - destruct (IH (call l s j)) as [-> ->].
    destruct (call_received l s j) as [-> ->].
    change (l :: ls) with ([l] ++ ls).
    by rewrite subscribers_app, fmap_app, app_assoc.
Qed.

(** X12: an emission calls the listeners registered for its event at
    that moment: each subscriber among them receives the signal once, in
    the order of registration, whatever the generator has registered; no
    listener is added or removed.  Only an error without any listener is
    thrown, and then the instance is left as it was. *)
Theorem emit_reaches_every_subscriber (s : signal) (j : JournalCtl) :
  match emit s j with
  | Normal j' =>
      received j' = received j
        ++ ((λ id, (id, s)) <$> subscribers (listeners_of (event_of s) j))
      ∧ listeners j' = listeners j
  | Uncaught e j' => s = SError e ∧ listeners_of error j = [] ∧ j' = j
  end.
Proof.
  unfold emit.
  destruct (listeners_of (event_of s) j) as [|l ls] eqn:Hls.
  - destruct s as [m|e|]; simpl; rewrite ?app_nil_r; done.
  - destruct s as [m|e|]; cbn iota; apply calls_received.
Qed.

Lemma signals_of_app id j' j sigs :
  received j' = received j ++ ((λ s, (id, s)) <$> sigs) →
  signals_of id j' = signals_of id j ++ sigs.
Proof.
  intros Hr. unfold signals_of. rewrite Hr, omap_app. f_equal. clear.
  induction sigs as [|s sigs IH]; [done|]. simpl. rewrite decide_True by done.
  f_equal. exact IH.
Qed.

Lemma emit_heard s j :
  heard j →
  ∃ j', emit s j = Normal j' ∧ heard j'
        ∧ signals_of 0 j' = signals_of 0 j ++ [s]
        ∧ stdErrorText j' = stdErrorText j.
Proof.
  intros Hj. pose proof (Hj (event_of s)) as Hev.
  destruct (listeners_of (event_of s) j) as [|l ls] eqn:Hls; [done|].
  assert (Hemit : emit s j = Normal (foldl (λ j l, call l s j) j (l :: ls))).
  { unfold emit. rewrite Hls. by destruct s. }
  destruct (calls_received (l :: ls) s j) as [Hr Hl].
  eexists. split; [exact Hemit|]. split; [|split].
  - intros ev. unfold listeners_of. rewrite Hl. apply Hj.
  - apply (signals_of_app 0 _ j [s]). by rewrite Hr, Hev.
  - by apply (emit_stdErrorText s).
Qed.

Section HeardFacts.
Context `{Host}.

Lemma handle_heard a j text :
  heard j → stdErrorText j = Some text →
  ∃ j', handle a j = Normal j' ∧ heard j'
        ∧ signals_of 0 j' = signals_of 0 j ++ signalled a text
        ∧ stdErrorText j' = Some (text ++ written a).
Proof.
  intros Hj Ht. destruct a as [line|chunk|code|err|]; cbn [handle signalled written];
    rewrite ?app_nil_r.
  - unfold on_line. destruct (parse_line line) as [m|]; cbn [try_catch].
    + destruct (emit_heard (SMessage m) j Hj) as (j' & -> & Hj' & Hs & Ht').
      exists j'. by rewrite Ht'.
    + destruct (emit_heard (SError (js "Could not parse JSON: " ++ line)) j Hj)
        as (j' & -> & Hj' & Hs & Ht').
      exists j'. by rewrite Ht'.
  - eexists. split; [done|]. split; [exact Hj|]. split; [done|]. simpl. by rewrite Ht.
  - unfold on_process_exit. rewrite Ht. cbn [nullish].
    assert (Hexit : ∀ j0, heard j0 → stdErrorText j0 = Some text →
              ∃ j', emit SExit j0 = Normal j' ∧ heard j'
                    ∧ signals_of 0 j' = signals_of 0 j0 ++ [SExit]
                    ∧ stdErrorText j' = Some text).
    { intros j0 Hj0 Ht0.
      destruct (emit_heard SExit j0 Hj0) as (j' & -> & Hj' & Hs & Ht').
      exists j'. by rewrite Ht'. }
    destruct code as [c|]; [|by apply Hexit]. case_bool_decide; [|by apply Hexit].
    destruct (emit_heard (SError text) j Hj) as (j1 & -> & Hj1 & Hs1 & Ht1).
    cbn [and_then]. destruct (Hexit j1 Hj1 ltac:(congruence)) as (j2 & -> & Hj2 & Hs2 & Ht2).
    exists j2. split; [done|]. split; [done|]. split; [|done].
    rewrite Hs2, Hs1. by rewrite <- app_assoc.
  - assert (He : on_process_error err j = emit (SError (spawn_error_message err)) j).
    { unfold on_process_error, spawn_error_message. by repeat case_match. }
    rewrite He. destruct (emit_heard (SError (spawn_error_message err)) j Hj)
      as (j' & -> & Hj' & Hs & Ht').
    exists j'. by rewrite Ht'.
  - by exists j.
Qed.
End HeardFacts.

Lemma subscribers_listeners_of_on ev ev' l j :
  subscribers (listeners_of ev (on ev' l j))
  = subscribers (listeners_of ev j)
    ++ (if decide (ev' = ev) then subscribers [l] else []).
Proof.
  unfold listeners_of, on. simpl. rewrite filter_app, fmap_app, subscribers_app.
  f_equal. rewrite filter_cons, filter_nil. simpl. by case_decide.
Qed.

Lemma generator_start_heard j j' :
  generator_start j = Ok j' →
  (heard j → heard j') ∧ received j' = received j ∧ stdErrorText j' = stdErrorText j.
Proof.
  unfold generator_start. destruct (generatorInstanceExtists j); [done|].
  intros [= <-]. split; [|done]. intros Hj ev.
  rewrite !subscribers_listeners_of_on. simpl.
  repeat case_decide; rewrite ?app_nil_r; apply Hj.
Qed.

Lemma generator_shift_heard j :
  listeners (generator_shift j).2 = listeners j
  ∧ received (generator_shift j).2 = received j
  ∧ stdErrorText (generator_shift j).2 = stdErrorText j.
Proof. unfold generator_shift. by destruct (messagePromises j). Qed.

Lemma next_heard g j :
  heard j →
  heard (next g j).2 ∧ received (next g j).2 = received j
  ∧ stdErrorText (next g j).2 = stdErrorText j.
Proof.
  intros Hj. destruct g; simpl; try done.
  - destruct (generator_start j) as [j'|] eqn:Hs; [|done].
    destruct (generator_start_heard j j' Hs) as (Hh & Hr & Ht).
    destruct (generator_shift_heard j') as (Hl' & Hr' & Ht').
    split; [|split; congruence].
    intros ev. unfold listeners_of. rewrite Hl'. by apply Hh.
  - destruct (generator_shift_heard j) as (Hl' & Hr' & Ht').
    split; [|done]. intros ev. unfold listeners_of. rewrite Hl'. by apply Hj.
Qed.

Lemma stderr_text_cons a actions :
  stderr_text (a :: actions) = written a ++ stderr_text actions.
Proof. unfold stderr_text. by destruct a. Qed.

Section RunFacts.
Context `{Host}.

(** One action from a state in which subscriber 0 listens. *)
Lemma perform_heard s a text :
  crashed s = None → heard (instance s) → stdErrorText (instance s) = Some text →
  crashed (perform s a) = None ∧ heard (instance (perform s a))
  ∧ stdErrorText (instance (perform s a)) = Some (text ++ written a)
  ∧ signals_of 0 (instance (perform s a))
    = signals_of 0 (instance s) ++ signalled a text.
Proof.
  intros Hc Hj Ht. unfold perform. rewrite Hc.
  destruct (decide (a = Next)) as [->|Ha].
  - destruct (next_heard (gen s) (instance s) Hj) as (Hj' & Hr & Ht').
    destruct (next (gen s) (instance s)) as [[g r] j']. simpl in *.
    rewrite !app_nil_r. split; [done|]. split; [done|]. split; [congruence|].
    unfold signals_of. by rewrite Hr.
  - destruct (handle_heard a (instance s) text Hj Ht) as (j' & Hh & Hj' & Hs & Ht').
    assert (Hp : match a with
                 | Next => let '(g, r, j) := next (gen s) (instance s) in
                     {| instance := j; gen := g; settled := record_result r (settled s);
                        crashed := None |}
                 | _ => after_handler (handle a (instance s)) s
                 end = after_handler (handle a (instance s)) s) by (by destruct a).
    rewrite Hp, Hh. done.
Qed.

Lemma perform_all_heard s actions text :
  crashed s = None → heard (instance s) → stdErrorText (instance s) = Some text →
  let s' := perform_all s actions in
  crashed s' = None ∧ heard (instance s')
  ∧ stdErrorText (instance s') = Some (text ++ stderr_text actions)
  ∧ signals_of 0 (instance s') = signals_of 0 (instance s) ++ signals_from text actions.
Proof.
  revert s text. induction actions as [|a actions IH]; intros s text Hc Hj Ht; simpl.
  - by rewrite !app_nil_r.
  - destruct (perform_heard s a text Hc Hj Ht) as (Hc1 & Hj1 & Ht1 & Hs1).
    destruct (IH (perform s a) _ Hc1 Hj1 Ht1) as (Hc2 & Hj2 & Ht2 & Hs2).
    split; [done|]. split; [done|]. split.
    + rewrite Ht2, stderr_text_cons. by rewrite <- app_assoc.
    + rewrite Hs2, Hs1. by rewrite <- app_assoc.
Qed.

Lemma initial_heard args : heard (instance (initial args)).
Proof. by intros []. Qed.

Lemma run_heard args actions :
  let s := perform_all (initial args) actions in
  crashed s = None ∧ heard (instance s)
  ∧ stdErrorText (instance s) = Some (stderr_text actions)
  ∧ signals_of 0 (instance s) = signals_from [] actions.
Proof.
  apply (perform_all_heard (initial args) actions []); try done. apply initial_heard.
Qed.

(** X13: in every run of an instance that has a subscriber, no handler
    throws, and the text kept of the standard error is never [null]: it is
    the chunks written so far, one after the other. *)
Theorem stderr_is_accumulated (args : list jsstring) (actions : list action) :
  let s := perform_all (initial args) actions in
  crashed s = None ∧ stdErrorText (instance s) = Some (stderr_text actions).
Proof. intros s. by destruct (run_heard args actions) as (? & _ & ? & _). Qed.

(** X14: when the process exits, the subscriber receives the exit
    signal once; when the exit code is a number other than 0, it first
    receives one error that carries all the text written to the standard
    error in the run; for the code 0 and for no code (a process ended by a
    signal) it receives no error, whatever was written. *)
Theorem exit_signals (args : list jsstring) (actions : list action) (code : option Z) :
  let s := perform_all (initial args) actions in
  let s' := perform s (ProcessExit code) in
  crashed s' = None
  ∧ signals_of 0 (instance s')
    = signals_of 0 (instance s)
      ++ match code with
         | Some c => if bool_decide (c ≠ 0%Z) then [SError (stderr_text actions)] else []
         | None => []
         end ++ [SExit].
Proof.
  intros s s'. destruct (run_heard args actions) as (Hc & Hj & Ht & _).
  destruct (perform_heard s (ProcessExit code) _ Hc Hj Ht) as (Hc' & _ & _ & Hs).
  split; [done|]. fold s' in Hs. rewrite Hs. f_equal. simpl.
  destruct code as [c|]; [|done]. by case_bool_decide.
Qed.

(** X15: when the process cannot be started, the subscriber receives one
    error and no exit signal; the message says that the executable was not
    found when the cause holds ENOENT, that it is not accessible when it
    holds EACCES and not ENOENT, and is the cause itself otherwise. *)
Theorem spawn_error_signal (args : list jsstring) (actions : list action) (err : jsstring) :
  let s := perform_all (initial args) actions in
  let s' := perform s (ProcessError err) in
  crashed s' = None
  ∧ ∃ text, signals_of 0 (instance s') = signals_of 0 (instance s) ++ [SError text]
     ∧ (includes (js "ENOENT") err = true →
        text = js "journalctl executable not found. Is this a systemd distribution?")
     ∧ (includes (js "ENOENT") err = false → includes (js "EACCES") err = true →
        text = js "journalctl executable not accessible.")
     ∧ (includes (js "ENOENT") err = false → includes (js "EACCES") err = false →
        text = err).
Proof.
  intros s s'. destruct (run_heard args actions) as (Hc & Hj & Ht & _).
  destruct (perform_heard s (ProcessError err) _ Hc Hj Ht) as (Hc' & _ & _ & Hs).
  split; [done|]. exists (spawn_error_message err). split; [done|].
  unfold spawn_error_message.
  destruct (includes (js "ENOENT") err), (includes (js "EACCES") err); done.
Qed.

(** X16: every line gives the subscriber exactly one signal, the record
    it is decoded to or an error that names the line; a line that is not
    decoded stops nothing, the lines after it are handled as any other. *)
Theorem one_signal_per_line (args : list jsstring) (actions : list action)
  (line : jsstring) :
  let s := perform_all (initial args) actions in
  let s' := perform s (Line line) in
  crashed s' = None
  ∧ signals_of 0 (instance s')
    = signals_of 0 (instance s)
      ++ [match parse_line line with
          | Some r => SMessage r
          | None => SError (js "Could not parse JSON: " ++ line)
          end].
Proof.
  intros s s'. destruct (run_heard args actions) as (Hc & Hj & Ht & _).
  destruct (perform_heard s (Line line) _ Hc Hj Ht) as (Hc' & _ & _ & Hs).
  split; [done|]. fold s' in Hs. rewrite Hs. simpl. by destruct (parse_line line).
Qed.


End RunFacts.

Section Unheard.
Context `{Host}.

(** X18: on an instance without a listener for errors, the error of a
    failed exit, of a line that is not decoded and of a process that
    cannot be started is thrown out of the handler, and the instance is
    left as it was: after a failed exit the exit signal is not emitted. *)
Theorem error_without_listener_is_thrown (j : JournalCtl) :
  listeners_of error j = [] →
  (∀ c, c ≠ 0%Z →
        on_process_exit (Some c) j
        = Uncaught (nullish (stdErrorText j)
                      (js "Process exited with code " ++ Number_toString c)) j)
  ∧ (∀ line, parse_line line = None →
        on_line line j = Uncaught (js "Could not parse JSON: " ++ line) j)
  ∧ (∀ err, on_process_error err j = Uncaught (spawn_error_message err) j).
Proof.
  intros Hl. split; [|split].
  - intros c Hc. unfold on_process_exit. rewrite bool_decide_true by done.
    unfold emit. simpl. by rewrite Hl.
  - intros line Hp. unfold on_line. rewrite Hp. cbn [try_catch].
    unfold emit. simpl. by rewrite Hl.
  - intros err. unfold on_process_error, spawn_error_message, emit. simpl. rewrite Hl.
    by repeat case_match.
Qed.
End Unheard.

Lemma error_without_listener_is_thrown_witness :
  (∀ c, c ≠ 0%Z →
        @on_process_exit sample_host (Some c) (spawned [])
        = Uncaught (nullish (stdErrorText (spawned []))
                      (js "Process exited with code " ++ @Number_toString sample_host c))
            (spawned []))
  ∧ (∀ line, parse_line line = None →
        on_line line (spawned [])
        = Uncaught (js "Could not parse JSON: " ++ line) (spawned []))
  ∧ (∀ err, on_process_error err (spawned [])
            = Uncaught (spawn_error_message err) (spawned [])).
Proof.
  apply (@error_without_listener_is_thrown sample_host (spawned [])).
  reflexivity.
Defined.

(** ** Where the generator stands *)

Lemma attached_heard j h : attached j h → heard j.
Proof. intros [Hl _ _ _ _] ev. unfold listeners_of. rewrite Hl. by destruct ev. Qed.

Lemma settle_totalEntries p v j : totalEntries (settle p v j) = totalEntries j.
Proof. unfold settle. by repeat case_match. Qed.

Lemma records_app a b : records (a ++ b) = records a ++ records b.
Proof. apply omap_app. Qed.

Lemma emit_total s j :
  listeners j = attached_listeners →
  ∃ j', emit s j = Normal j' ∧ listeners j' = listeners j
        ∧ totalEntries j' = totalEntries j + length (records [s]).
Proof.
  intros Hl. rewrite (emit_attached_listeners s j Hl). eexists. split; [done|].
  destruct s as [m|e|]; cbn [generator_listener call].
  - split.
    + match goal with |- context [settle ?p ?v ?j'] =>
        by destruct (settle_fields p v j') as (-> & _) end.
    + rewrite settle_totalEntries. simpl. lia.
  - split.
    + match goal with |- context [settle ?p ?v ?j'] =>
        by destruct (settle_fields p v j') as (-> & _) end.
    + rewrite settle_totalEntries. simpl. lia.
  - split.
    + match goal with |- context [settle ?p ?v ?j'] =>
        by destruct (settle_fields p v j') as (-> & _) end.
    + rewrite settle_totalEntries. simpl. lia.
Qed.

Section CountFacts.
Context `{Host}.

Lemma handle_total a j text :
  listeners j = attached_listeners → stdErrorText j = Some text →
  ∃ j', handle a j = Normal j'
        ∧ totalEntries j' = totalEntries j + length (records (signalled a text)).
Proof.
  intros Hl Ht. destruct a as [line|chunk|code|err|]; cbn [handle signalled].
  - unfold on_line. destruct (parse_line line) as [m|]; cbn [try_catch].
    + destruct (emit_total (SMessage m) j Hl) as (j' & -> & _ & Hn). by exists j'.
    + destruct (emit_total (SError (js "Could not parse JSON: " ++ line)) j Hl)
        as (j' & -> & _ & Hn). by exists j'.
  - eexists. split; [done|]. simpl. lia.
  - unfold on_process_exit. rewrite Ht. cbn [nullish].
    destruct code as [c|]; [case_bool_decide|].
    + destruct (emit_total (SError text) j Hl) as (j1 & -> & Hl1 & Hn1).
      cbn [and_then].
      destruct (emit_total SExit j1 ltac:(congruence)) as (j2 & -> & _ & Hn2).
      exists j2. split; [done|]. rewrite Hn2, Hn1. simpl. lia.
    + destruct (emit_total SExit j Hl) as (j' & -> & _ & Hn). by exists j'.
    + destruct (emit_total SExit j Hl) as (j' & -> & _ & Hn). by exists j'.
  - assert (He : on_process_error err j = emit (SError (spawn_error_message err)) j).
    { unfold on_process_error, spawn_error_message. by repeat case_match. }
    rewrite He. destruct (emit_total (SError (spawn_error_message err)) j Hl)
      as (j' & -> & _ & Hn).
    by exists j'.
  - exists j. split; [done|]. simpl. lia.
Qed.

(** What a run of the body records. *)
Lemma next_records g j :
  g ≠ SuspendedStart →
  let '(g', r, j') := next g j in
  totalEntries j' = totalEntries j ∧ received j' = received j
  ∧ match r with
    | Some (Returned n) => n = totalEntries j ∧ g' = Completed ∧ g ≠ Completed
    | Some (Yielded _) => g' = SuspendedYield ∧ g ≠ Completed
    | Some Done => g = Completed ∧ g' = Completed
    | Some (Rejected _) => False
    | None => g ≠ Completed ∧ g' ≠ Completed
    end.
Proof.
  intros Hg.
  assert (Hawait : ∀ p j0, totalEntries j0 = totalEntries j →
    match (generator_await p j0).2 with
    | Some (Returned n) => n = totalEntries j ∧ (generator_await p j0).1 = Completed
    | Some (Yielded _) => (generator_await p j0).1 = SuspendedYield
    | Some _ => False
    | None => (generator_await p j0).1 ≠ Completed
    end).
  { intros p j0 Hn. unfold generator_await.
    by destruct (promises j0 !! p) as [[|[m|]]|]. }
  destruct g as [| |p|]; [done|..]; simpl.
  - unfold generator_shift. destruct (messagePromises j) as [|p rest].
    + done.
    + specialize (Hawait p (set_messagePromises rest j) eq_refl).
      destruct (generator_await p _) as [g' [[]|]]; simpl in *; try done;
        by intuition.
  - specialize (Hawait p j eq_refl).
    destruct (generator_await p j) as [g' [[]|]]; simpl in *; try done; by intuition.
  - done.
Qed.

Lemma elem_of_record_result x r l :
  x ∈ record_result r l ↔ x ∈ l ∨ r = Some x.
Proof.
  destruct r as [y|]; simpl.
  - rewrite elem_of_app, list_elem_of_singleton.
    split; (intros [?|?]; [by left|right; congruence]).
  - split; [by left|]. by intros [?|?].
Qed.

Lemma yielded_record_result r l :
  yielded (record_result r l) = yielded l ++ (if r is Some (Yielded m) then [m] else []).
Proof.
  destruct r as [y|]; simpl; [apply yielded_snoc|by rewrite app_nil_r].
Qed.

Lemma following_yielded_bound s :
  following s →
  length (yielded (settled s)) ≤ length (records (signals_of 0 (instance s))).
Proof.
  intros Hs. apply prefix_length. etrans; [by apply following_drawn_prefix|].
  apply records_before_end_prefix.
Qed.

Lemma counted_perform s a text :
  following s → stdErrorText (instance s) = Some text →
  counted s → counted (perform s a).
Proof.
  intros Hs Ht (Hn & Hret & Hbound).
  pose proof (following_yielded_bound s Hs) as Hy.
  pose proof Hs as (Hc & h & Hj & Hpre & Hg).
  destruct (decide (a = Next)) as [->|Ha].
  - unfold perform. rewrite Hc.
    assert (Hstart : gen s ≠ SuspendedStart) by (intros Heq; by rewrite Heq in Hg).
    pose proof (next_records (gen s) (instance s) Hstart) as Hnext.
    destruct (next (gen s) (instance s)) as [[g' r] j'].
    destruct Hnext as (Hn' & Hr' & Hres). unfold counted. simpl.
    assert (Hsig : signals_of 0 j' = signals_of 0 (instance s))
      by (unfold signals_of; by rewrite Hr').
    rewrite Hsig, Hn'. split; [done|]. split.
    + intros ->. destruct r as [[m|n|e|]|].
      * by destruct Hres.
      * exists n. apply elem_of_record_result. by right.
      * done.
      * destruct Hres as [Hgc _]. destruct (Hret Hgc) as [n Hin].
        exists n. apply elem_of_record_result. by left.
      * by destruct Hres.
    + intros n [Hin | ->]%elem_of_record_result.
      * destruct (Hbound n Hin) as (Hgc & Hlo & Hhi).
        destruct r as [[m|n'|e|]|]; try done; try (by destruct Hres as (? & ?));
          try (by destruct Hres as (? & ? & ?)).
        destruct Hres as [_ ->]. split; [done|].
        rewrite yielded_record_result, app_nil_r. lia.
      * destruct Hres as (-> & -> & _). split; [done|].
        rewrite yielded_record_result, app_nil_r. lia.
  - pose proof (attached_heard _ _ Hj) as Hh.
    destruct (handle_heard a (instance s) text Hh Ht) as (j' & Hhandle & _ & Hsig & _).
    destruct (handle_total a (instance s) text (attached_to _ _ Hj) Ht)
      as (j'' & Hhandle' & Htot).
    rewrite Hhandle in Hhandle'. injection Hhandle' as <-.
    assert (Hp : perform s a = after_handler (handle a (instance s)) s).
    { unfold perform. rewrite Hc. by destruct a. }
    rewrite Hp, Hhandle. unfold counted. simpl.
    rewrite Hsig, records_app, length_app, Htot, Hn. split; [done|]. split; [done|].
    intros n Hin. destruct (Hbound n Hin) as (Hgc & Hlo & Hhi).
    split; [done|]. lia.
Qed.

Lemma counted_perform_all s actions text :
  following s → heard (instance s) → stdErrorText (instance s) = Some text →
  counted s → counted (perform_all s actions).
Proof.
  revert s text. induction actions as [|a actions IH]; intros s text Hs Hh Ht Hcn;
    [done|].
  simpl. destruct Hs as (Hc & Hrest).
  destruct (perform_heard s a text Hc Hh Ht) as (_ & Hh' & Ht' & _).
  eapply IH; [by apply following_perform| done | done |].
  by apply (counted_perform s a text).
Qed.

Lemma counted_start args : counted (perform (initial args) Next).
Proof.
  split; [done|]. split; [done|]. intros n Hin. by apply elem_of_nil in Hin.
Qed.

Lemma run_counted args actions :
  counted (perform_all (initial args) (Next :: actions)).
Proof.
  destruct (perform_heard (initial args) Next [] eq_refl (initial_heard args) eq_refl)
    as (_ & Hh & Ht & _).
  apply (counted_perform_all (perform (initial args) Next) actions _
           (following_start args) Hh Ht (counted_start args)).
Qed.

Lemma run_following args actions :
  following (perform_all (initial args) (Next :: actions)).
Proof. apply (following_perform_all (perform (initial args) Next)), following_start. Qed.

(** X19: once drained, a generator that was started before the process
    did anything has ended exactly when the subscriber has received an
    error or an exit signal; otherwise it waits at the promise that follows
    the records received so far, an empty queue never ends it. *)
Theorem generator_ends_at_first_end_signal (args : list jsstring)
  (actions : list action) :
  let s := perform_all (initial args) (Next :: actions) in
  gen (drain s)
  = if forallb is_record (signals_of 0 (instance s))
    then Awaiting (length (records (signals_of 0 (instance s))))
    else Completed.
Proof.
  intros s. pose proof (run_following args actions) as Hs. fold s in Hs.
  destruct (draw_until_waiting (S (length (messagePromises (instance s)))) s Hs)
    as (Hd & Hr & Hw); [apply draws_left_queue|].
  fold (drain s) in Hd, Hr, Hw.
  pose proof (following_drawn_all _ Hd Hw) as Hall.
  assert (Hsig : signals_of 0 (instance (drain s)) = signals_of 0 (instance s))
    by (unfold signals_of; by rewrite Hr).
  rewrite Hsig in Hall.
  destruct Hd as (_ & h & Hj & Hpre & Hg).
  pose proof (attached_promises _ _ Hj) as Hp. rewrite Hsig in Hp.
  pose proof (cells_shape (signals_of 0 (instance s))) as Hshape.
  destruct (forallb is_record (signals_of 0 (instance s))) eqn:Hrec.
  - destruct Hw as [Hw|(p & Hw & Hpend)]; rewrite Hw in Hg.
    + destruct Hg as (p & _ & _ & Hend). rewrite Hp, Hshape in Hend.
      apply list_elem_of_lookup_2, elem_of_app in Hend as [Hin|Hin].
      * by apply list_elem_of_fmap in Hin as (m & ? & _).
      * by apply list_elem_of_singleton in Hin.
    + destruct Hg as [_ ->]. rewrite Hw, Hall. by rewrite records_before_end_all.
  - destruct Hw as [Hw|(p & Hw & Hpend)]; [done|]. rewrite Hw in Hg.
    destruct Hg as [_ ->]. destruct Hshape as [rest Hshape].
    rewrite Hp, Hshape, Hall, lookup_app_r in Hpend by (by rewrite length_fmap).
    by rewrite length_fmap, Nat.sub_diag in Hpend.
Qed.

(** X20: the count of the generator is the number of records emitted
    since it started; a generator that has ended has returned, and the
    number it returns is at least the number of records it has yielded and
    at most the number of records emitted: it counts the records that
    follow an error as well. *)
Theorem returned_count (args : list jsstring) (actions : list action) :
  let s := perform_all (initial args) (Next :: actions) in
  totalEntries (instance s) = length (records (signals_of 0 (instance s)))
  ∧ (gen s = Completed → ∃ n, Returned n ∈ settled s)
  ∧ ∀ n, Returned n ∈ settled s →
         length (yielded (settled s)) ≤ n
         ∧ n ≤ length (records (signals_of 0 (instance s))).
Proof.
  intros s. destruct (run_counted args actions) as (Hn & Hret & Hb). fold s in Hn, Hret, Hb.
  split; [done|]. split; [done|]. intros n Hin.
  destruct (Hb n Hin) as (_ & Hlo & Hhi). lia.
Qed.
End CountFacts.

(** One record is yielded and 2 is returned: *)
Example returned_count_exceeds_yielded :
  let s := @perform_all sample_host (initial [])
             [Next; Line (json "{'MESSAGE':'one'}"); Line (json "{oops");
              Line (json "{'MESSAGE':'two'}"); Next; Next; Next] in
  gen s = Completed
  ∧ length (yielded (settled s)) = 1
  ∧ omap (λ r, match r with Returned n => Some n | _ => None end) (settled s) = [2].
Proof. vm_compute. done. Qed.

(** ** A generator that starts late *)

Lemma settle_prepend p v r0 j :
  settle p v (prepend r0 j) = prepend r0 (settle p v j).
Proof. unfold settle. simpl. by destruct (promises j !! p) as [[|?]|]. Qed.

Lemma call_prepend l s r0 j : call l s (prepend r0 j) = prepend r0 (call l s j).
Proof.
  destruct l; cbn [call].
  - unfold prepend, set_received. simpl. by rewrite app_assoc.
  - apply settle_prepend.
  - destruct s; [|done..]. cbn [resolve prepend set_received].
    by rewrite <- settle_prepend.
  - apply settle_prepend.
Qed.

Lemma calls_prepend ls s r0 j :
  foldl (λ j l, call l s j) (prepend r0 j) ls
  = prepend r0 (foldl (λ j l, call l s j) j ls).
Proof.
  revert j. induction ls as [|l ls IH]; intros j; [done|].
  cbn [foldl]. by rewrite call_prepend, IH.
Qed.

Lemma emit_prepend s r0 j :
  emit s (prepend r0 j) = prepend_completion r0 (emit s j).
Proof.
  unfold emit. change (listeners_of (event_of s) (prepend r0 j))
    with (listeners_of (event_of s) j).
  destruct (listeners_of (event_of s) j) as [|l ls]; destruct s;
    cbn [prepend_completion]; by rewrite ?calls_prepend.
Qed.

Section PrependFacts.
Context `{Host}.

Lemma handle_prepend a r0 j :
  handle a (prepend r0 j) = prepend_completion r0 (handle a j).
Proof.
  destruct a as [line|chunk|code|err|]; cbn [handle]; [| done | | | done].
  - destruct (parse_line line) as [m|] eqn:Hp.
    + rewrite !(on_line_delivers _ m) by done. apply emit_prepend.
    + rewrite !on_line_fails by done. apply emit_prepend.
  - unfold on_process_exit. change (stdErrorText (prepend r0 j)) with (stdErrorText j).
    destruct code as [c|]; [|apply emit_prepend].
    case_bool_decide; [|apply emit_prepend].
    rewrite emit_prepend. destruct (emit _ j); cbn [and_then prepend_completion];
      [apply emit_prepend|done].
  - unfold on_process_error. repeat case_match; apply emit_prepend.
Qed.

Lemma generator_shift_prepend r0 j :
  generator_shift (prepend r0 j)
  = ((generator_shift j).1, prepend r0 (generator_shift j).2).
Proof. unfold generator_shift. simpl. by destruct (messagePromises j). Qed.

Lemma next_prepend g r0 j :
  next g (prepend r0 j) = ((next g j).1, prepend r0 (next g j).2).
Proof.
  destruct g; cbn [next]; try done.
  - unfold generator_start. change (generatorInstanceExtists (prepend r0 j))
      with (generatorInstanceExtists j).
    destruct (generatorInstanceExtists j); [done|].
    match goal with |- generator_shift ?a = (_, prepend r0 (generator_shift ?b).2) =>
      change a with (prepend r0 b) end.
    apply generator_shift_prepend.
  - apply generator_shift_prepend.
Qed.

Lemma perform_prepend r0 s a :
  perform (prepend_system r0 s) a = prepend_system r0 (perform s a).
Proof.
  unfold perform. cbn [crashed prepend_system instance gen settled].
  destruct (crashed s) eqn:Hc; [done|].
  destruct a; try (rewrite handle_prepend; by destruct (handle _ _)).
  rewrite next_prepend. by destruct (next (gen s) (instance s)) as [[g r] j'].
Qed.

Lemma perform_all_prepend r0 s actions :
  perform_all (prepend_system r0 s) actions = prepend_system r0 (perform_all s actions).
Proof.
  revert s. induction actions as [|a actions IH]; intros s; [done|].
  simpl. by rewrite perform_prepend, IH.
Qed.

Lemma drain_prepend r0 s : drain (prepend_system r0 s) = prepend_system r0 (drain s).
Proof. unfold drain. apply perform_all_prepend. Qed.

Lemma emit_unstarted s j :
  listeners j = [(message, Subscriber 0); (error, Subscriber 0); (exit, Subscriber 0)] →
  emit s j = Normal (call (Subscriber 0) s j).
Proof. intros Hl. destruct s; unfold emit, listeners_of; by rewrite Hl. Qed.

Lemma unstarted_perform s a : a ≠ Next → unstarted s → unstarted (perform s a).
Proof.
  intros Ha (Hc & Hg & Hst & Hl & Hf & Hp).
  assert (Hperf : perform s a = after_handler (handle a (instance s)) s).
  { unfold perform. rewrite Hc. by destruct a. }
  rewrite Hperf. clear Hperf.
  assert (Hkeep : ∀ j', listeners j' = listeners (instance s) →
            generatorInstanceExtists j' = generatorInstanceExtists (instance s) →
            promises j' = promises (instance s) →
            unstarted (after_handler (Normal j') s)).
  { intros j' Hl' Hf' Hp'. unfold unstarted. simpl. by rewrite Hl', Hf', Hp'. }
  destruct a as [line|chunk|code|err|]; cbn [handle]; [| | | |done].
  - destruct (parse_line line) as [m|] eqn:Hparse.
    + rewrite (on_line_delivers _ m), emit_unstarted by done. by apply Hkeep.
    + rewrite on_line_fails, emit_unstarted by done. by apply Hkeep.
  - by apply Hkeep.
  - unfold on_process_exit. destruct code as [c|]; [case_bool_decide|];
      rewrite ?emit_unstarted by done; cbn [and_then];
      rewrite ?emit_unstarted by done; by apply Hkeep.
  - unfold on_process_error. repeat case_match; rewrite emit_unstarted by done;
      by apply Hkeep.
Qed.

Lemma unstarted_perform_all s actions :
  Forall (λ a, a ≠ Next) actions → unstarted s → unstarted (perform_all s actions).
Proof.
  intros Ha. revert s. induction Ha as [|a actions Ha _ IH]; intros s Hs; [done|].
  simpl. by apply IH, unstarted_perform.
Qed.

Lemma unstarted_initial args : unstarted (initial args).
Proof. done. Qed.

Lemma unstarted_start s :
  unstarted s → received (instance s) = [] → following (perform s Next).
Proof.
  intros (Hc & Hg & Hst & Hl & Hf & Hp) Hr.
  destruct s as [j g st cr]. destruct j as [a t f ls ps n r q rc].
  simpl in *. subst.
  split; [done|]. exists 1. split; [by split|]. split; [by exists [Pending]|].
  done.
Qed.

(** X21: a generator that is started after the process has written
    yields, once drained, the records that the subscriber receives after
    the start and before the first error or exit signal that follows it:
    nothing of what was emitted before the start. *)
Theorem late_generator_yields_later_records (args : list jsstring)
  (before actions : list action) :
  Forall (λ a, a ≠ Next) before →
  let s0 := perform_all (initial args) before in
  let s := perform_all s0 (Next :: actions) in
  ∃ later,
    signals_of 0 (instance s) = signals_of 0 (instance s0) ++ later
    ∧ yielded (settled (drain s)) = records_before_end later.
Proof.
  intros Hb s0 s.
  pose proof (unstarted_perform_all _ _ Hb (unstarted_initial args)) as Hs0.
  fold s0 in Hs0.
  set (t0 := {| instance := set_received [] (instance s0); gen := gen s0;
                settled := settled s0; crashed := crashed s0 |}).
  assert (Heq : s0 = prepend_system (received (instance s0)) t0).
  { unfold prepend_system, prepend, t0. destruct s0 as [j g st cr].
    destruct j. simpl. by rewrite app_nil_r. }
  assert (Ht0 : unstarted t0) by exact Hs0.
  pose proof (unstarted_start t0 Ht0 eq_refl) as Hf.
  set (t := perform_all t0 (Next :: actions)).
  assert (Ht : following t) by (by apply (following_perform_all (perform t0 Next))).
  assert (Hs : s = prepend_system (received (instance s0)) t).
  { unfold s, t. rewrite Heq at 1. apply perform_all_prepend. }
  exists (signals_of 0 (instance t)). split.
  - rewrite Hs. unfold signals_of. simpl. by rewrite omap_app.
  - rewrite Hs, drain_prepend. simpl. by destruct (drain_spec t Ht) as [-> _].
Qed.
End PrependFacts.

Lemma late_generator_yields_later_records_witness :
  let s0 := @perform_all sample_host (initial [])
              [Line (json "{'MESSAGE':'early'}")] in
  let s := @perform_all sample_host s0 [Next; Line (json "{'MESSAGE':'late'}")] in
  ∃ later,
    signals_of 0 (instance s) = signals_of 0 (instance s0) ++ later
    ∧ yielded (settled (@drain sample_host s)) = records_before_end later.
Proof.
  apply (@late_generator_yields_later_records sample_host []
           [Line (json "{'MESSAGE':'early'}")] [Line (json "{'MESSAGE':'late'}")]).
  apply Forall_singleton. discriminate.
Defined.

(** ** What stays of a generator *)


Lemma settle_flag p v j :
  generatorInstanceExtists (settle p v j) = generatorInstanceExtists j.
Proof. unfold settle. by repeat case_match. Qed.

Lemma call_flag l s j :
  generatorInstanceExtists (call l s j) = generatorInstanceExtists j.
Proof.
  destruct l; cbn [call]; rewrite ?settle_flag; try done.
  destruct s; [|done..]. by rewrite settle_flag.
Qed.

Lemma emit_flag s j j' :
  emit s j = Normal j' → generatorInstanceExtists j' = generatorInstanceExtists j.
Proof.
  unfold emit. generalize (listeners_of (event_of s) j). intros ls Hn.
  assert (Hj : j' = foldl (λ j l, call l s j) j ls)
    by (destruct ls, s; by simplify_eq).
  rewrite Hj. clear. revert j.
  induction ls as [|l ls IH]; intros j; [done|].
  simpl. by rewrite IH, call_flag.
Qed.

Section FlagFacts.
Context `{Host}.

Lemma handle_flag a j j' :
  handle a j = Normal j' → generatorInstanceExtists j' = generatorInstanceExtists j.
Proof.
  destruct a as [line|chunk|code|err|]; cbn [handle].
  - destruct (parse_line line) as [m|] eqn:Hp.
    + rewrite (on_line_delivers _ m) by done. apply emit_flag.
    + rewrite on_line_fails by done. apply emit_flag.
  - by intros [= <-].
  - unfold on_process_exit.
    destruct code as [c|]; [case_bool_decide|]; try apply emit_flag.
    destruct (emit (SError _) j) as [j1|] eqn:H1; cbn [and_then]; [|done].
    intros H2. rewrite (emit_flag _ _ _ H2). by apply (emit_flag _ _ _ H1).
  - unfold on_process_error. repeat case_match; apply emit_flag.
  - by intros [= <-].
Qed.

Lemma next_flag g j :
  g ≠ SuspendedStart →
  generatorInstanceExtists (next g j).2 = generatorInstanceExtists j.
Proof.
  intros Hg. destruct g; [done|..]; simpl; try done.
  unfold generator_shift. by destruct (messagePromises j).
Qed.

Lemma perform_flag s a :
  following s → generatorInstanceExtists (instance s) = true →
  generatorInstanceExtists (instance (perform s a)) = true.
Proof.
  intros (Hc & h & Hj & Hpre & Hg) Hf. unfold perform. rewrite Hc.
  destruct (decide (a = Next)) as [->|Ha].
  - assert (Hstart : gen s ≠ SuspendedStart) by (intros Heq; by rewrite Heq in Hg).
    pose proof (next_flag (gen s) (instance s) Hstart) as Hn.
    destruct (next (gen s) (instance s)) as [[g r] j']. simpl in *. congruence.
  - destruct (handle_attached a _ h Hj) as (j' & sigs & Hh & _).
    assert (Hp : match a with
                 | Next => let '(g, r, j) := next (gen s) (instance s) in
                     {| instance := j; gen := g; settled := record_result r (settled s);
                        crashed := None |}
                 | _ => after_handler (handle a (instance s)) s
                 end = after_handler (handle a (instance s)) s) by (by destruct a).
    rewrite Hp, Hh. simpl. by rewrite (handle_flag a _ _ Hh).
Qed.

Lemma perform_all_flag s actions :
  following s → generatorInstanceExtists (instance s) = true →
  generatorInstanceExtists (instance (perform_all s actions)) = true.
Proof.
  revert s. induction actions as [|a actions IH]; intros s Hs Hf; [done|].
  simpl. apply IH; [by apply following_perform|by apply perform_flag].
Qed.

(** X23: once a generator has started, the instance keeps the mark of
    it for the rest of the run, also after that generator has ended: a new
    generator object made at any later moment is rejected at its first
    [next()], which changes nothing. *)
Theorem one_generator_for_ever (args : list jsstring) (actions : list action) :
  let s := perform_all (initial args) (Next :: actions) in
  generatorInstanceExtists (instance s) = true
  ∧ ∀ later,
      let j := instance (perform_all s later) in
      next (fst (createGenerator j)) j = (Completed, Some (Rejected OnlyOneGenerator), j).
Proof.
  intros s.
  assert (Hflag : ∀ l, generatorInstanceExtists
                         (instance (perform_all (initial args) (Next :: l))) = true).
  { intros l. apply (perform_all_flag (perform (initial args) Next));
      [apply following_start|done]. }
  split; [apply Hflag|]. intros later j. apply first_next_rejected.
  unfold j, s, perform_all. rewrite <- foldl_app. apply (Hflag (actions ++ later)).
Qed.

End FlagFacts.
